(** * pg_page_verification: checksum verification of a PostgreSQL base directory

    A shallow embedding of [pg_page_verification.c].  Machine integers are
    [Z] with the wrap-around of their C type written out, C strings are
    [string], a page is a [list byte], and the file-system calls of the
    program ([open], [read], [opendir], [chdir], [lstat]) act on an explicit
    [world]: a file tree, the current working directory of the process and
    the list of operations performed so far.  What the program prints, in
    verbose mode or at the end of [main], is not part of the embedding. *)

From Stdlib Require Import ZArith List Lia Bool Ascii String Permutation.
From Stdlib.Strings Require Import Byte.
Import ListNotations.

Local Open Scope string_scope.
Local Open Scope Z_scope.
Local Open Scope list_scope.

(** ** Configuration constants *)

(** Modelled from the spec: [BLCKSZ], the size of a page in bytes, is a macro
    of PostgreSQL's [pg_config.h], which the program includes and which is not
    among its sources.  The value is the default of the specification
    (PAGE_SIZE 8192), the one the comment in [is_page_corrupted] names. *)
Definition BLCKSZ : Z := 8192.

(** Modelled from the spec: [RELSEG_SIZE], the number of pages in a segment,
    is a macro of [pg_config.h] too.  The value is the default of the
    specification (SEGMENT_BYTE_CAPACITY 1 GiB over PAGE_SIZE 8192), the
    131072 blocks the comment in [is_page_corrupted] names. *)
Definition RELSEG_SIZE : Z := 131072.

Definition MAX_DIR_LENGTH : nat := 256.

(** ** Machine integers *)

Definition wrap32 (z : Z) : Z := z mod 2 ^ 32.

(** Conversion of a [long] to [int] on an LP64 machine: the low 32 bits,
    read as two's complement. *)
Definition to_int (z : Z) : Z := (z + 2 ^ 31) mod 2 ^ 32 - 2 ^ 31.

Definition INT_MAX : Z := 2 ^ 31 - 1.
Definition LONG_MAX : Z := 2 ^ 63 - 1.

(** ** C strings and the libc functions the program calls *)

Definition chars (s : string) : list ascii := list_ascii_of_string s.

Definition strlen (s : string) : nat := List.length (chars s).

Definition isdigit (c : ascii) : bool :=
  let n := nat_of_ascii c in (48 <=? n)%nat && (n <=? 57)%nat.

Definition digit_value (c : ascii) : Z := Z.of_nat (nat_of_ascii c) - 48.

(** The number written by a run of decimal digits. *)
Definition decimal (ds : list ascii) : Z :=
  fold_left (fun acc c => 10 * acc + digit_value c) ds 0.

(** The digits [atoi] converts: the longest run of digits at the start. *)
Fixpoint leading_digits (l : list ascii) : list ascii :=
  match l with
  | c :: l' => if isdigit c then c :: leading_digits l' else []
  | [] => []
  end.

(** [atoi] as [(int) strtol (nptr, NULL, 10)]: [strtol] stops at the first
    character that is no digit and saturates at [LONG_MAX].  White space and a
    sign at the start are left out: [parse_segment_number] only ever passes the
    address of a run of digits followed by the terminator. *)
Definition atoi (l : list ascii) : Z :=
  to_int (Z.min (decimal (leading_digits l)) LONG_MAX).

(** [strstr haystack needle != NULL]. *)
Fixpoint strstr (haystack needle : string) : bool :=
  String.prefix needle haystack ||
  match haystack with
  | EmptyString => false
  | String _ rest => strstr rest needle
  end.

(** [snprintf (buf, size, "%s/%s", a, b)]: at most [size - 1] characters are
    stored, the rest of the output is dropped. *)
Definition snprintf_path (size : nat) (a b : string) : string :=
  string_of_list_ascii (firstn (size - 1) (chars (a ++ "/" ++ b)%string)).

(** ** parse_segment_number *)

(** The [while] loop of [parse_segment_number], started with
    [segmentnumber = i >= 0].  [None]: the index fell below zero and the
    function returned 0 from inside the loop.  [Some j]: the loop ended with
    [segmentnumber = j], on a character that is no digit. *)
Fixpoint back_over_digits (filename : list ascii) (i : nat) : option nat :=
  match i with
  | O => if isdigit (nth 0 filename zero) then None else Some O
  | S i' =>
      if isdigit (nth i filename zero) then back_over_digits filename i'
      else Some i
  end.

(** For the empty name [segmentnumber] starts at -1 and the loop reads the
    byte before the string.  Whatever that byte is the result is 0: a digit
    makes the index -2 and the loop returns 0, anything else ends the loop and
    [atoi] is given the empty string. *)
Definition parse_segment_number (filename : string) : Z :=
  let l := chars filename in
  match strlen filename with
  | O => 0
  | S last =>
      match back_over_digits l last with
      | None => 0
      | Some segmentnumber => wrap32 (atoi (skipn (segmentnumber + 1) l))
      end
  end.

(** ** Block addressing *)

(** The segment size in bytes, [static unsigned int segmentSize]. *)
Definition segmentSize : Z := wrap32 (RELSEG_SIZE * BLCKSZ).

(** [uint32 segmentBlockOffset = RELSEG_SIZE * segmentNumber]. *)
Definition segmentBlockOffset (filename : string) : Z :=
  wrap32 (RELSEG_SIZE * parse_segment_number filename).

(** The block number handed to [pg_checksum_page]:
    [segmentBlockOffset + blkno], a [uint32]. *)
Definition checksum_blkno (filename : string) (blkno : Z) : Z :=
  wrap32 (segmentBlockOffset filename + blkno).

(** ** The file system

    A regular file is what [open] and [read] make of it: whether it can be
    opened, and what each successive [read (fd, page, BLCKSZ)] returns.  Once
    the list is used up [read] returns 0, the end of the file. *)

Inductive read_result : Type :=
| RData (bs : list byte)   (* the bytes stored in [page]; their number is returned *)
| RError.                  (* [read] returns -1 *)

Record file : Type := mkfile {
  f_openable : bool;
  f_reads : list read_result
}.

(** A directory has the names [readdir] returns, in the order it returns
    them ([.] and [..] among them), and the entries those names are looked up
    in.  It has two permissions for the process: [readable] lets [opendir]
    list it, [searchable] lets [chdir] enter it and lets names be looked up
    in it.  [Other] is what is neither directory nor regular file. *)
#[warnings="-register-all"]
Inductive node : Type :=
| Reg (f : file)
| Dir (readable searchable : bool) (listing : list string)
      (children : list (string * node))
| Other.

(** An absolute path, from the root downwards. *)
Definition path : Type := list string.

(** The three cases the program tells apart in [statbuf.st_mode]. *)
Inductive st_mode : Type := S_IFDIR | S_IFREG | S_IFOTHER.

Inductive event : Type :=
| EvOpendir (cwd : path) (dirpath : string) (ok : bool)
| EvChdir (cwd : path) (dirpath : string) (ok : bool)
| EvLstat (cwd : path) (name : string) (found : option st_mode)
| EvOpen (cwd : path) (name : string) (ok : bool)
| EvRead (n : Z)
| EvChecksum (blkno : Z)
| EvClose
| EvClosedir.

(** The state the program runs in.  [w_trace] lists the operations performed,
    the latest first.  [w_uninit] is what a [struct stat] holds before the
    first [lstat] has filled it. *)
Record world : Type := mkworld {
  w_root : node;
  w_cwd : path;
  w_uninit : st_mode;
  w_trace : list event
}.

Definition log (e : event) (w : world) : world :=
  mkworld (w_root w) (w_cwd w) (w_uninit w) (e :: w_trace w).

Definition set_cwd (p : path) (w : world) : world :=
  mkworld (w_root w) p (w_uninit w) (w_trace w).

Fixpoint child (name : string) (children : list (string * node)) : option node :=
  match children with
  | [] => None
  | (n, x) :: rest => if String.eqb n name then Some x else child name rest
  end.

Fixpoint lookup (x : node) (p : path) : option node :=
  match p with
  | [] => Some x
  | c :: p' =>
      match x with
      | Dir _ _ _ children =>
          match child c children with
          | Some y => lookup y p'
          | None => None
          end
      | _ => None
      end
  end.

(** The components of a path name, the text between the slashes. *)
Fixpoint split_path (p : string) : list string :=
  match p with
  | EmptyString => [EmptyString]
  | String c rest =>
      if Ascii.eqb c "/" then EmptyString :: split_path rest
      else match split_path rest with
           | first :: others => String c first :: others
           | [] => [String c EmptyString]
           end
  end.

(** Path name resolution, one component at a time.  A component is looked
    up in a directory, which the process must be allowed to search; an empty
    component, between two slashes or after the last one, stands for the
    directory reached so far. *)
Fixpoint walk (root : node) (cur : path) (comps : list string) : option path :=
  match comps with
  | [] => Some cur
  | c :: rest =>
      match lookup root cur with
      | Some (Dir _ searchable _ _) =>
          if String.eqb c "" then walk root cur rest
          else if negb searchable then None
          else if String.eqb c "." then walk root cur rest
          else if String.eqb c ".." then walk root (removelast cur) rest
          else match lookup root (cur ++ [c]) with
               | Some _ => walk root (cur ++ [c]) rest
               | None => None
               end
      | _ => None
      end
  end.

Definition is_absolute (p : string) : bool :=
  match p with
  | String c _ => Ascii.eqb c "/"
  | EmptyString => false
  end.

(** What the path name [p] names for a process whose working directory is
    [cwd]: the absolute path and the node found there. *)
Definition resolve (root : node) (cwd : path) (p : string)
    : option (path * node) :=
  match p with
  | EmptyString => None
  | _ =>
      let start := if is_absolute p then [] else cwd in
      match walk root start (split_path p) with
      | Some q =>
          match lookup root q with
          | Some x => Some (q, x)
          | None => None
          end
      | None => None
      end
  end.

Definition namei (w : world) (p : string) : option (path * node) :=
  resolve (w_root w) (w_cwd w) p.

Definition mode_of (x : node) : st_mode :=
  match x with
  | Dir _ _ _ _ => S_IFDIR
  | Reg _ => S_IFREG
  | Other => S_IFOTHER
  end.

(** [opendir (dirpath)]: the names to be read, or [None] for [NULL]. *)
Definition sys_opendir (dirpath : string) (w : world)
    : option (list string) * world :=
  match namei w dirpath with
  | Some (_, Dir true _ listing _) =>
      (Some listing, log (EvOpendir (w_cwd w) dirpath true) w)
  | _ => (None, log (EvOpendir (w_cwd w) dirpath false) w)
  end.

(** [chdir (dirpath)]: the directory becomes the working directory when the
    process may search it, and the call fails otherwise.  The program does
    not look at what it returns. *)
Definition sys_chdir (dirpath : string) (w : world) : world :=
  match namei w dirpath with
  | Some (q, Dir _ true _ _) =>
      set_cwd q (log (EvChdir (w_cwd w) dirpath true) w)
  | _ => log (EvChdir (w_cwd w) dirpath false) w
  end.

(** [lstat (name, &statbuf)]; the program does not look at what it returns,
    and when the call fails [statbuf] keeps what it held. *)
Definition sys_lstat (name : string) (statbuf : st_mode) (w : world)
    : st_mode * world :=
  match namei w name with
  | Some (_, x) =>
      (mode_of x, log (EvLstat (w_cwd w) name (Some (mode_of x))) w)
  | None => (statbuf, log (EvLstat (w_cwd w) name None) w)
  end.

(** [open (filename, O_RDONLY)]: what the reads of the new descriptor will
    return, or [None] for -1.  A directory can be opened for reading, and
    every [read] from it fails. *)
Definition sys_open (filename : string) (w : world)
    : option (list read_result) * world :=
  match namei w filename with
  | Some (_, Reg f) =>
      if f_openable f
      then (Some (f_reads f), log (EvOpen (w_cwd w) filename true) w)
      else (None, log (EvOpen (w_cwd w) filename false) w)
  | Some (_, Dir true _ _ _) =>
      (Some [RError], log (EvOpen (w_cwd w) filename true) w)
  | _ => (None, log (EvOpen (w_cwd w) filename false) w)
  end.

(** ** What the program takes from PostgreSQL

    [PageHeaderData] is declared in [storage/bufpage.h] and
    [pg_checksum_page] is defined in [storage/checksum_impl.h]; the program
    reads the field [pd_checksum] of the one and calls the other.  Both give
    a [uint16], and [pg_checksum_page] leaves the page as it found it. *)

Class Postgres : Type := {
  pd_checksum : list byte -> Z;
  pg_checksum_page : list byte -> Z -> Z
}.

Section Checksum.

Context {pg : Postgres}.

(** ** is_page_corrupted

    [dirpath] is only printed, in verbose mode, and is left out. *)

Definition is_page_corrupted (page : list byte) (blkno : Z)
    (filename : string) : bool :=
  let checksum := pg_checksum_page page (checksum_blkno filename blkno) in
  let corrupted := false in
  if negb (pd_checksum page =? 0) && negb (pd_checksum page =? checksum)
  then true
  else corrupted.

(** ** scan_segmentfile *)

(** The [while] loop of [scan_segmentfile] and the [if (n > 0)] after it.
    [reads] is what the reads of [fd] return from here on. *)
Fixpoint read_pages (filename : string) (reads : list read_result)
    (blkno corrupted : Z) (w : world) : Z * world :=
  match reads with
  | [] => (corrupted, log (EvRead 0) w)
  | RError :: _ => (corrupted, log (EvRead (-1)) w)
  | RData bs :: rest =>
      let page := firstn (Z.to_nat BLCKSZ) bs in
      let n := Z.of_nat (List.length page) in
      let w1 := log (EvRead n) w in
      if n =? BLCKSZ then
        let w2 := log (EvChecksum (checksum_blkno filename blkno)) w1 in
        let corrupted' :=
          if is_page_corrupted page blkno filename
          then wrap32 (corrupted + 1) else corrupted in
        read_pages filename rest (wrap32 (blkno + 1)) corrupted' w2
      else if 0 <? n then (wrap32 (corrupted + 1), w1)
      else (corrupted, w1)
  end.

Definition scan_segmentfile (filename dirpath : string) (w : world)
    : Z * world :=
  if strstr filename "pg_internal.init" then (0, w)
  else
    match sys_open filename w with
    | (None, w1) => (1, w1)
    | (Some reads, w1) =>
        let (corrupted, w2) := read_pages filename reads 0 0 w1 in
        (corrupted, log EvClose w2)
    end.

(** ** scan_directory *)

(** The [while ((dir = readdir (d)) != NULL)] loop.  [scan] stands for the
    recursive call; [None] is a call that never returns. *)
Fixpoint scan_entries (scan : string -> world -> option (Z * world))
    (dirpath : string) (entries : list string) (statbuf : st_mode)
    (corrupt_pages_found : Z) (w : world) : option (Z * world) :=
  match entries with
  | [] => Some (corrupt_pages_found, log EvClosedir w)
  | d_name :: rest =>
      let (statbuf1, w1) := sys_lstat d_name statbuf w in
      match statbuf1 with
      | S_IFDIR =>
          if String.eqb "." d_name || String.eqb ".." d_name
          then scan_entries scan dirpath rest statbuf1 corrupt_pages_found w1
          else
            let new_dirpath := snprintf_path MAX_DIR_LENGTH dirpath d_name in
            match scan new_dirpath w1 with
            | Some (n, w2) =>
                scan_entries scan dirpath rest statbuf1
                  (wrap32 (corrupt_pages_found + n)) w2
            | None => None
            end
      | S_IFREG =>
          let (n, w2) := scan_segmentfile d_name dirpath w1 in
          scan_entries scan dirpath rest statbuf1
            (wrap32 (corrupt_pages_found + n)) w2
      | S_IFOTHER =>
          scan_entries scan dirpath rest statbuf1 corrupt_pages_found w1
      end
  end.

(** [fuel] bounds the depth of the recursion; with none left the result is
    [None]. *)
Fixpoint scan_directory (fuel : nat) (dirpath : string) (w : world)
    : option (Z * world) :=
  match fuel with
  | O => None
  | S fuel' =>
      match sys_opendir dirpath w with
      | (Some entries, w1) =>
          scan_entries (scan_directory fuel') dirpath entries (w_uninit w1) 0
            (sys_chdir dirpath w1)
      | (None, w1) => Some (0, w1)
      end
  end.

(** The pages of a file that is read in full pages, numbered from [k], which
    are found corrupted. *)
Definition corrupted_from (filename : string) (k : nat) (pages : list (list byte))
    : Z :=
  Z.of_nat (List.length
    (filter (fun ip => is_page_corrupted (snd ip) (Z.of_nat (fst ip)) filename)
       (combine (seq k (List.length pages)) pages))).

Definition corrupted_pages (filename : string) (pages : list (list byte)) : Z :=
  corrupted_from filename 0 pages.

End Checksum.

(** ** main *)

(** One return value of [getopt_long] other than -1: the option character
    and [optarg]. *)
Record getopt_result : Type := mkopt {
  opt_c : ascii;
  opt_arg : option string
}.

(** The [-D] case: [strcpy (datadir, optarg)], then ["base"] or ["/base"] is
    appended, according to [strcmp (&optarg[strlen (optarg) - 1], "/")].  The
    result is [None] where the C code has no defined behaviour: an empty
    [optarg] is read before its first byte, and [datadir] has room for
    [MAX_DIR_LENGTH - 1] characters. *)
Definition set_datadir (optarg : string) : option string :=
  match strlen optarg with
  | O => None
  | S last =>
      let datadir :=
        if Ascii.eqb (nth last (chars optarg) zero) "/"
        then (optarg ++ "base")%string
        else (optarg ++ "/base")%string in
      if (strlen datadir <? MAX_DIR_LENGTH)%nat then Some datadir else None
  end.

(** How the option loop of [main] ends. *)
Inductive parsed : Type :=
| Parsed (datadir : string)   (* [getopt_long] returned -1 *)
| Exits (status : Z)          (* [exit] was called inside the loop *)
| UndefinedOptions.           (* [datadir] was overrun *)

(** The [while ((c = getopt_long (...)) != -1)] loop.  The options [-c] and
    [-v] set flags that only change what is printed. *)
Fixpoint parse_options (opts : list getopt_result) (datadir : string) : parsed :=
  match opts with
  | [] => Parsed datadir
  | o :: rest =>
      if Ascii.eqb (opt_c o) zero then parse_options rest datadir
      else if Ascii.eqb (opt_c o) "c" then parse_options rest datadir
      else if Ascii.eqb (opt_c o) "v" then parse_options rest datadir
      else if Ascii.eqb (opt_c o) "D" then
        match opt_arg o with
        | Some optarg =>
            match set_datadir optarg with
            | Some datadir' => parse_options rest datadir'
            | None => UndefinedOptions
            end
        | None => Exits 1
        end
      else Exits 1
  end.

(** How [main] ends. *)
Inductive outcome : Type :=
| Exit (status : Z) (w : world)
| Undefined
| NoReturn.

Section Main.

Context {pg : Postgres}.

(** [opts] is what the calls of [getopt_long] return before -1, [datadir0]
    what the array [datadir] holds before anything is copied into it. *)
Definition main (argc : Z) (opts : list getopt_result) (datadir0 : string)
    (fuel : nat) (w : world) : outcome :=
  if argc =? 1 then Exit 1 w
  else
    match parse_options opts datadir0 with
    | Exits status => Exit status w
    | UndefinedOptions => Undefined
    | Parsed datadir =>
        let (statbuf, w1) := sys_lstat datadir (w_uninit w) w in
        match statbuf with
        | S_IFDIR =>
            match scan_directory fuel datadir w1 with
            | Some (corrupted_pages_found, w2) =>
                if 0 <? corrupted_pages_found then Exit 1 w2 else Exit 0 w2
            | None => NoReturn
            end
        | _ => Exit 1 w1
        end
    end.

End Main.

#[global] Arguments isdigit : simpl never.
#[global] Arguments digit_value : simpl never.
#[global] Arguments wrap32 : simpl never.
#[global] Arguments BLCKSZ : simpl never.

(** ** Notions of the specification *)

(** The trailing run of decimal digits of a name. *)
Definition trailing_digits (l : list ascii) : list ascii :=
  rev (leading_digits (rev l)).

(** The latest [chdir] in a trace that succeeded: the working directory it
    was called in and the path it was given. *)
Fixpoint last_chdir (trace : list event) : option (path * string) :=
  match trace with
  | [] => None
  | EvChdir cwd dirpath true :: _ => Some (cwd, dirpath)
  | _ :: trace' => last_chdir trace'
  end.


(** What [chdir] does to the process: the directory [q] becomes the working
    directory when it may be searched. *)
Definition enter (q : path) (searchable : bool) (w : world) : world :=
  if searchable then set_cwd q w else w.

(** The operations other than a [chdir] that succeeds. *)
Definition quiet (e : event) : Prop :=
  match e with
  | EvChdir _ _ true => False
  | _ => True
  end.

(** [w'] differs from [w] by operations that change neither the file tree nor
    the working directory. *)
Definition same_place (w w' : world) : Prop :=
  w_root w' = w_root w /\ w_cwd w' = w_cwd w /\ w_uninit w' = w_uninit w /\
  last_chdir (w_trace w') = last_chdir (w_trace w).

(** A directory the scan does not descend from: each name listed is [.] or
    [..] or is found in the directory [q] and is no directory. *)
Definition leaf_listing (root : node) (q : path) (listing : list string) : Prop :=
  Forall (fun e =>
            e = "." \/ e = ".." \/
            exists q' x, resolve root q e = Some (q', x) /\ mode_of x <> S_IFDIR)
    listing.

(** The operations [evs], the earliest first, added to the trace. *)
Definition logs (evs : list event) (w : world) : world :=
  fold_left (fun w' e => log e w') evs w.

(** What reading and verifying [n] full pages does, the first of them being
    page [k] of the file. *)
Definition page_events (filename : string) (k n : nat) : list event :=
  flat_map
    (fun i => [EvRead BLCKSZ; EvChecksum (checksum_blkno filename (Z.of_nat i))])
    (seq k n).

Definition full_page (page : list byte) : Prop :=
  Z.of_nat (List.length page) = BLCKSZ.

(** The sum of what the files below a node contribute when each is scanned
    on its own. *)
Definition file_contribution {pg : Postgres} (name : string) (f : file) : Z :=
  if strstr name "pg_internal.init" then 0
  else if f_openable f
       then fst (read_pages name (f_reads f) 0 0
                   (mkworld Other [] S_IFOTHER []))
       else 1.

Fixpoint descendants_total {pg : Postgres} (name : string) (x : node) : Z :=
  match x with
  | Reg f => file_contribution name f
  | Dir _ _ _ children =>
      (fix total (cs : list (string * node)) : Z :=
         match cs with
         | [] => 0
         | (n, y) :: cs' => descendants_total n y + total cs'
         end) children
  | Other => 0
  end.

(** The sum of the weights of the operations of a trace. *)
Definition net (weight : event -> Z) (trace : list event) : Z :=
  fold_right (fun e acc => weight e + acc) 0 trace.

Definition net_of (weight : event -> Z) (w : world) : Z :=
  net weight (w_trace w).

(** File descriptors: +1 for an [open] that succeeds, -1 for a [close]. *)
Definition fd_weight (e : event) : Z :=
  match e with
  | EvOpen _ _ true => 1
  | EvClose => -1
  | _ => 0
  end.

(** Directory streams: +1 for an [opendir] that succeeds, -1 for a
    [closedir]. *)
Definition dir_weight (e : event) : Z :=
  match e with
  | EvOpendir _ _ true => 1
  | EvClosedir => -1
  | _ => 0
  end.

(** Where the program is in the scan of a file: no file is open; the file
    [name] is open and [blkno] is the index of the page to be read next; the
    page [blkno] was read in full and is to be verified; the last read of
    the file was made. *)
Inductive file_state : Type :=
| NoFile
| NextRead (name : string) (blkno : Z)
| NextChecksum (name : string) (blkno : Z)
| NextClose.

(** The operations [scan_segmentfile] lets follow each other: after an
    [open] that succeeds, a [read]; after a read of [BLCKSZ] bytes the
    checksum of the page, at the block number of its index, and then the next
    read; after any other read, the [close].  The other operations are made
    while no file is open. *)
Definition file_step (st : file_state) (e : event) : option file_state :=
  match st, e with
  | NoFile, EvOpen _ name true => Some (NextRead name 0)
  | NoFile, (EvRead _ | EvChecksum _ | EvClose) => None
  | NoFile, _ => Some NoFile
  | NextRead name blkno, EvRead n =>
      if n =? BLCKSZ then Some (NextChecksum name blkno) else Some NextClose
  | NextChecksum name blkno, EvChecksum b =>
      if b =? checksum_blkno name blkno
      then Some (NextRead name (wrap32 (blkno + 1)))
      else None
  | NextClose, EvClose => Some NoFile
  | _, _ => None
  end.

(** The state the operations [trace], the latest first, lead to from the
    state [st]; [None] when an operation comes where it may not. *)
Definition file_protocol (trace : list event) (st : file_state)
    : option file_state :=
  fold_right
    (fun e r => match r with Some st1 => file_step st1 e | None => None end)
    (Some st) trace.

(** From [w] to [w'] the process performs operations that lead from the
    state [st] to the state [st']. *)
Definition performs (st : file_state) (w w' : world) (st' : file_state) : Prop :=
  exists evs : list event,
    w_trace w' = evs ++ w_trace w /\ file_protocol evs st = Some st'.

(** Whether [opendir (p)] returns a stream for a process in [cwd]. *)
Definition opens_dir (root : node) (cwd : path) (p : string) : bool :=
  match resolve root cwd p with
  | Some (_, Dir true _ _ _) => true
  | _ => false
  end.

(** A listing of the directory [q], scanned as [dirpath], from which the scan
    enters no directory: every name is found in [q], and a name found to be a
    directory is [.] or [..] or cannot be opened under the path the scan
    builds for it. *)
Definition flat_listing (root : node) (q : path) (dirpath : string)
    (listing : list string) : Prop :=
  Forall (fun e =>
            exists q' x,
              resolve root q e = Some (q', x) /\
              (mode_of x = S_IFDIR ->
               e = "." \/ e = ".." \/
               opens_dir root q (snprintf_path MAX_DIR_LENGTH dirpath e) = false))
    listing.

(** What the regular files listed in the directory [q] contribute. *)
Fixpoint listing_total {pg : Postgres} (root : node) (q : path)
    (listing : list string) : Z :=
  match listing with
  | [] => 0
  | e :: rest =>
      match resolve root q e with
      | Some (_, Reg f) => file_contribution e f
      | _ => 0
      end + listing_total root q rest
  end.

(** An entry of the directory [qb], scanned under the absolute path
    [dirpath] and listing [lb], as the layout of a data directory has them:
    [.], [..], or the directory of a database.  Such a directory is seen as
    a directory from [qb], can be opened under the path the scan builds for
    it, is one from which the scan enters no directory, and holds nothing
    that bears the name of an entry of [lb]. *)
Definition database_entry (root : node) (qb : path) (dirpath : string)
    (lb : list string) (e : string) : Prop :=
  e = "." \/ e = ".." \/
  ((exists qx x, resolve root qb e = Some (qx, x) /\ mode_of x = S_IFDIR) /\
   exists q l c,
     resolve root [] (snprintf_path MAX_DIR_LENGTH dirpath e)
       = Some (q, Dir true true l c) /\
     flat_listing root q (snprintf_path MAX_DIR_LENGTH dirpath e) l /\
     forall d, In d lb -> d <> "." -> d <> ".." -> resolve root q d = None).

(** What the regular files of the database directories listed contribute. *)
Fixpoint layout_total {pg : Postgres} (root : node) (dirpath : string)
    (listing : list string) : Z :=
  match listing with
  | [] => 0
  | e :: rest =>
      (if String.eqb "." e || String.eqb ".." e then 0
       else match resolve root [] (snprintf_path MAX_DIR_LENGTH dirpath e) with
            | Some (q, Dir true true l _) => listing_total root q l
            | _ => 0
            end) + layout_total root dirpath rest
  end.

(** Two states of the process with the same file tree, working directory
    and uninitialised [struct stat]; the operations performed so far may
    differ. *)
Definition agree (w1 w2 : world) : Prop :=
  w_root w1 = w_root w2 /\ w_cwd w1 = w_cwd w2 /\ w_uninit w1 = w_uninit w2.

(** Two runs that end alike: neither returns, or both return the same count
    in states that agree. *)
Definition same_result (r1 r2 : option (Z * world)) : Prop :=
  match r1, r2 with
  | Some (n1, w1), Some (n2, w2) => n1 = n2 /\ agree w1 w2
  | None, None => True
  | _, _ => False
  end.

(** ** Data of the worked examples *)

(** The examples read [pd_checksum] where PostgreSQL has it on a
    little-endian machine, at offset 8 after the 8 bytes of [pd_lsn].  Their
    checksum is a stand-in for [pg_checksum_page]: the last step of the real
    function applied to the sum of the block number and of the bytes after
    the header field. *)
Definition byte_at (page : list byte) (i : nat) : Z :=
  Z.of_N (Byte.to_N (nth i page x00)).

Definition example_pd_checksum (page : list byte) : Z :=
  byte_at page 8 + 256 * byte_at page 9.

Definition example_checksum (page : list byte) (blkno : Z) : Z :=
  (fold_left (fun a b => a + Z.of_N (Byte.to_N b)) (skipn 10 page) blkno)
    mod 65535 + 1.

#[global] Instance example_postgres : Postgres := {
  pd_checksum := example_pd_checksum;
  pg_checksum_page := example_checksum
}.

(** A page of zeros but for the two bytes of [pd_checksum]. *)
Definition page_with_checksum (lo hi : byte) : list byte :=
  repeat x00 8 ++ [lo; hi] ++ repeat x00 (Z.to_nat BLCKSZ - 10).

Definition new_page : list byte := page_with_checksum x00 x00.
Definition good_page_0 : list byte := page_with_checksum x01 x00.
Definition bad_page : list byte := page_with_checksum xff xff.

Definition dir_of (children : list (string * node)) : node :=
  Dir true true ("." :: ".." :: map fst children) children.

Definition root_of (base : node) : world :=
  mkworld (dir_of [("base", base)]) [] S_IFOTHER [].

(** A process in the directory [/base/1] of a tree in which that directory
    holds [children]. *)
Definition in_base_1 (children : list (string * node)) : world :=
  mkworld (dir_of [("base", dir_of [("1", dir_of children)])])
    ["base"; "1"] S_IFOTHER [].

Definition fsm_world : world :=
  in_base_1 [("16384_fsm", Reg (mkfile true [RData bad_page]));
             ("16384_vm", Reg (mkfile true [RData bad_page]))].

Definition read_error_world : world :=
  in_base_1 [("16384", Reg (mkfile true [RData good_page_0; RError]))].

Definition short_read_world : world :=
  in_base_1 [("16384", Reg (mkfile true
     [RData good_page_0; RData bad_page; RData [x01; x02; x03]; RData new_page]))].

(** Database 1 holds the relation file 16384, with one corrupted page, and
    database 16384 holds the file 5, with two.  The two trees differ in the
    order in which [/base] lists its entries. *)
Definition db_1 : node :=
  dir_of [("16384", Reg (mkfile true [RData new_page; RData bad_page]))].
Definition db_16384 : node :=
  dir_of [("5", Reg (mkfile true [RData bad_page; RData bad_page]))].
Definition base_children : list (string * node) :=
  [("1", db_1); ("16384", db_16384)].
Definition listing_a : list string := ["."; ".."; "1"; "16384"].
Definition listing_b : list string := ["."; ".."; "16384"; "1"].
Definition world_a : world :=
  root_of (Dir true true listing_a base_children).
Definition world_b : world :=
  root_of (Dir true true listing_b base_children).

(** The process of [world_a] once the scan of [/base] has entered it and
    called [lstat] on the entry [1]. *)
Definition in_base_a : world :=
  mkworld (w_root world_a) ["base"] S_IFOTHER
    [EvLstat ["base"] "1" (Some S_IFDIR)].



(** [/base/1/16384] with a good first page and a new second page: nothing
    is corrupted. *)
Definition clean_children : list (string * node) :=
  [("16384", Reg (mkfile true [RData good_page_0; RData new_page]))].
Definition clean_in_base_1 : world := in_base_1 clean_children.
Definition clean_world : world :=
  root_of (dir_of [("1", dir_of clean_children)]).

(** The process of [world_a] with a [struct stat] that says directory before
    any [lstat]. *)
Definition stale_dir_world : world :=
  mkworld (w_root world_a) [] S_IFDIR [].

(** A data directory with two databases: database 1 holds the file 1259,
    with one corrupted page, database 16384 holds the file 16385, with two,
    and its second segment 16385.1, with none. *)
Definition layout_world : world :=
  root_of (dir_of
    [("1", dir_of [("1259", Reg (mkfile true [RData new_page; RData bad_page]))]);
     ("16384", dir_of
        [("16385", Reg (mkfile true [RData bad_page; RData bad_page]));
         ("16385.1", Reg (mkfile true [RData new_page]))])]).

(** * Properties *)

(** ** Machine integers *)

Lemma wrap32_small (z : Z) : 0 <= z < 2 ^ 32 -> wrap32 z = z.
Proof. intros H. unfold wrap32. now apply Z.mod_small. Qed.

Lemma wrap32_range (z : Z) : 0 <= wrap32 z < 2 ^ 32.
Proof. unfold wrap32. apply Z.mod_pos_bound. lia. Qed.

Lemma to_int_small (z : Z) : 0 <= z <= INT_MAX -> to_int z = z.
Proof.
  unfold to_int, INT_MAX. intros H.
  rewrite Z.mod_small; lia.
Qed.

(** ** Runs of digits *)

Lemma digit_value_nonneg (c : ascii) : isdigit c = true -> 0 <= digit_value c.
Proof.
  unfold isdigit, digit_value. cbv zeta.
  generalize (nat_of_ascii c). intros n H.
  apply andb_true_iff in H. destruct H as [H _].
  apply Nat.leb_le in H. lia.
Qed.

Lemma decimal_from_nonneg (ds : list ascii) :
  forallb isdigit ds = true ->
  forall acc, 0 <= acc ->
  0 <= fold_left (fun a c => 10 * a + digit_value c) ds acc.
Proof.
  induction ds as [|d ds IH]; cbn [fold_left forallb]; intros Hd acc Hacc;
    [exact Hacc|].
  apply andb_true_iff in Hd. destruct Hd as [Hd Hds].
  apply IH; [exact Hds|].
  pose proof (digit_value_nonneg d Hd). lia.
Qed.

Lemma decimal_nonneg (ds : list ascii) :
  forallb isdigit ds = true -> 0 <= decimal ds.
Proof. intros H. unfold decimal. apply decimal_from_nonneg; [exact H | lia]. Qed.

Lemma leading_digits_all (ds : list ascii) :
  forallb isdigit ds = true -> leading_digits ds = ds.
Proof.
  induction ds as [|d ds IH]; simpl; intros H; [reflexivity|].
  apply andb_true_iff in H. destruct H as [Hd Hds].
  rewrite Hd, IH; auto.
Qed.

Lemma leading_digits_stop (ds : list ascii) (c : ascii) (rest : list ascii) :
  forallb isdigit ds = true -> isdigit c = false ->
  leading_digits (ds ++ c :: rest) = ds.
Proof.
  induction ds as [|d ds IH]; simpl; intros H Hc.
  - now rewrite Hc.
  - apply andb_true_iff in H. destruct H as [Hd Hds].
    rewrite Hd, IH; auto.
Qed.

Lemma forallb_rev {A} (f : A -> bool) (l : list A) :
  forallb f (rev l) = forallb f l.
Proof.
  induction l as [|a l IH]; simpl; [reflexivity|].
  rewrite forallb_app, IH. simpl. rewrite andb_true_r. apply andb_comm.
Qed.

Lemma trailing_digits_stop (pre : list ascii) (c : ascii) (ds : list ascii) :
  forallb isdigit ds = true -> isdigit c = false ->
  trailing_digits (pre ++ c :: ds) = ds.
Proof.
  intros Hds Hc. unfold trailing_digits.
  rewrite rev_app_distr. simpl. rewrite <- app_assoc. simpl.
  rewrite leading_digits_stop; auto using rev_involutive.
  now rewrite forallb_rev.
Qed.

(** A name with a character that is no digit splits at the last such
    character. *)
Lemma split_at_last_non_digit (l : list ascii) :
  forallb isdigit l = false ->
  exists pre c ds,
    l = pre ++ c :: ds /\ isdigit c = false /\ forallb isdigit ds = true.
Proof.
  induction l as [|x l IH] using rev_ind; simpl; intros H; [discriminate|].
  rewrite forallb_app in H. simpl in H. rewrite andb_true_r in H.
  destruct (isdigit x) eqn:Hx.
  - rewrite andb_true_r in H.
    destruct (IH H) as (pre & c & ds & -> & Hc & Hds).
    exists pre, c, (ds ++ [x]). repeat split; auto.
    + now rewrite <- app_assoc.
    + rewrite forallb_app, Hds. simpl. now rewrite Hx.
  - exists l, x, []. repeat split; auto.
Qed.

(** ** parse_segment_number *)

Lemma back_over_digits_eq (l : list ascii) (i : nat) :
  back_over_digits l i =
  if isdigit (nth i l zero)
  then match i with O => None | S i' => back_over_digits l i' end
  else Some i.
Proof. destruct i; reflexivity. Qed.

Lemma nth_digit (l : list ascii) (i : nat) :
  forallb isdigit l = true -> (i < List.length l)%nat ->
  isdigit (nth i l zero) = true.
Proof.
  intros H Hi. rewrite forallb_forall in H. apply H. now apply nth_In.
Qed.

Lemma back_over_digits_all (l : list ascii) (i : nat) :
  forallb isdigit l = true -> (i < List.length l)%nat ->
  back_over_digits l i = None.
Proof.
  intros H. induction i as [|i IH]; intros Hi;
    rewrite back_over_digits_eq, nth_digit by assumption; [reflexivity|].
  apply IH. lia.
Qed.

Lemma back_over_digits_stop (pre : list ascii) (c : ascii) (ds : list ascii) (k : nat) :
  isdigit c = false -> forallb isdigit ds = true -> (k <= List.length ds)%nat ->
  back_over_digits (pre ++ c :: ds) (List.length pre + k) = Some (List.length pre).
Proof.
  intros Hc Hds. induction k as [|k IH]; intros Hk; rewrite back_over_digits_eq.
  - rewrite Nat.add_0_r, nth_middle, Hc. reflexivity.
  - rewrite app_nth2 by lia.
    replace (List.length pre + S k - List.length pre)%nat with (S k) by lia.
    simpl nth. rewrite nth_digit by (auto; lia).
    rewrite Nat.add_succ_r. apply IH. lia.
Qed.

Lemma parse_segment_number_all_digits (filename : string) :
  forallb isdigit (chars filename) = true -> parse_segment_number filename = 0.
Proof.
  intros H. unfold parse_segment_number, strlen.
  destruct (List.length (chars filename)) as [|last] eqn:Hlen; [reflexivity|].
  rewrite back_over_digits_all; auto. lia.
Qed.

Lemma parse_segment_number_suffix (filename : string) (pre : list ascii)
    (c : ascii) (ds : list ascii) :
  chars filename = pre ++ c :: ds ->
  isdigit c = false -> forallb isdigit ds = true ->
  parse_segment_number filename = wrap32 (atoi ds).
Proof.
  intros Hl Hc Hds. unfold parse_segment_number, strlen. rewrite Hl.
  rewrite length_app. simpl List.length. rewrite Nat.add_succ_r.
  rewrite back_over_digits_stop by auto.
  replace (List.length pre + 1)%nat with (List.length (pre ++ [c])).
  - replace (pre ++ c :: ds) with ((pre ++ [c]) ++ ds) by now rewrite <- app_assoc.
    now rewrite skipn_app, skipn_all, Nat.sub_diag.
  - rewrite length_app. reflexivity.
Qed.

Lemma atoi_digits (ds : list ascii) :
  forallb isdigit ds = true -> decimal ds <= INT_MAX -> atoi ds = decimal ds.
Proof.
  intros Hds Hmax. unfold atoi. rewrite leading_digits_all by assumption.
  pose proof (decimal_nonneg ds Hds).
  assert (INT_MAX <= LONG_MAX) by (unfold INT_MAX, LONG_MAX; lia).
  rewrite Z.min_l by lia. apply to_int_small. lia.
Qed.

(** ** The read loop *)

Lemma logs_app (e1 e2 : list event) (w : world) :
  logs (e1 ++ e2) w = logs e2 (logs e1 w).
Proof. unfold logs. apply fold_left_app. Qed.

Lemma page_events_succ (filename : string) (k n : nat) :
  page_events filename k (S n) =
  EvRead BLCKSZ :: EvChecksum (checksum_blkno filename (Z.of_nat k))
    :: page_events filename (S k) n.
Proof. reflexivity. Qed.

Section ReadLoop.

Context {pg : Postgres}.

Lemma corrupted_from_cons (filename : string) (k : nat) (page : list byte)
    (pages : list (list byte)) :
  corrupted_from filename k (page :: pages) =
  (if is_page_corrupted page (Z.of_nat k) filename then 1 else 0)
  + corrupted_from filename (S k) pages.
Proof.
  unfold corrupted_from. cbn [List.length seq combine filter fst snd].
  destruct (is_page_corrupted page (Z.of_nat k) filename);
    cbn [List.length]; lia.
Qed.

Lemma corrupted_from_bounds (filename : string) (pages : list (list byte)) :
  forall k,
  0 <= corrupted_from filename k pages
    <= Z.of_nat (List.length pages).
Proof.
  induction pages as [|page pages IH]; intros k.
  - unfold corrupted_from. simpl. lia.
  - rewrite corrupted_from_cons. specialize (IH (S k)).
    cbn [List.length].
    destruct (is_page_corrupted page (Z.of_nat k) filename); lia.
Qed.

(** Full pages are verified one after the other, page [i] of the file at
    block [checksum_blkno filename i]. *)
Lemma read_pages_full (filename : string) (pages : list (list byte))
    (rest : list read_result) :
  forall (k : nat) (c : Z) (w : world),
  Forall full_page pages ->
  Z.of_nat (k + List.length pages) < 2 ^ 32 ->
  0 <= c <= Z.of_nat k ->
  read_pages filename (map RData pages ++ rest) (Z.of_nat k) c w =
  read_pages filename rest (Z.of_nat (k + List.length pages))
    (c + corrupted_from filename k pages)
    (logs (page_events filename k (List.length pages)) w).
Proof.
  induction pages as [|page pages IH]; intros k c w Hfull Hlen Hc.
  - cbn [map app List.length page_events]. rewrite Nat.add_0_r.
    unfold corrupted_from. simpl. now rewrite Z.add_0_r.
  - inversion Hfull as [|? ? Hp Hps]; subst.
    cbn [map app List.length] in *. cbn [read_pages].
    unfold full_page in Hp.
    rewrite firstn_all2 by lia.
    rewrite Hp, Z.eqb_refl.
    rewrite (wrap32_small (Z.of_nat k + 1)) by lia.
    replace (Z.of_nat k + 1) with (Z.of_nat (S k)) by lia.
    rewrite corrupted_from_cons, page_events_succ.
    replace (k + S (List.length pages))%nat with (S k + List.length pages)%nat
      in * by lia.
    destruct (is_page_corrupted page (Z.of_nat k) filename).
    + rewrite (wrap32_small (c + 1)) by lia.
      rewrite IH by (auto; lia). now rewrite Z.add_assoc.
    + rewrite IH by (auto; lia). now rewrite Z.add_0_l.
Qed.

Lemma read_pages_full_file (filename : string) (pages : list (list byte))
    (rest : list read_result) (w : world) :
  Forall full_page pages ->
  Z.of_nat (List.length pages) < 2 ^ 32 ->
  read_pages filename (map RData pages ++ rest) 0 0 w =
  read_pages filename rest (Z.of_nat (List.length pages))
    (corrupted_pages filename pages)
    (logs (page_events filename 0 (List.length pages)) w).
Proof.
  intros Hfull Hlen.
  apply (read_pages_full filename pages rest 0%nat 0 w Hfull); simpl; lia.
Qed.

(** A last read of fewer than [BLCKSZ] bytes: no page is verified, and one is
    added to the count when the read returned anything at all. *)
Lemma read_pages_short (filename : string) (last : list byte)
    (rest : list read_result) (blkno c : Z) (w : world) :
  Z.of_nat (List.length last) < BLCKSZ ->
  read_pages filename (RData last :: rest) blkno c w =
  (if 0 <? Z.of_nat (List.length last) then wrap32 (c + 1) else c,
   log (EvRead (Z.of_nat (List.length last))) w).
Proof.
  intros Hlen. cbn [read_pages].
  rewrite firstn_all2 by lia.
  destruct (Z.eqb_spec (Z.of_nat (List.length last)) BLCKSZ) as [E|_]; [lia|].
  destruct (0 <? Z.of_nat (List.length last)); reflexivity.
Qed.

(** A read that fails ends the loop like the end of the file: the count is
    the one reached so far. *)
Lemma read_pages_error (filename : string) (rest : list read_result)
    (blkno c : Z) (w : world) :
  read_pages filename (RError :: rest) blkno c w =
  (c, log (EvRead (-1)) w).
Proof. reflexivity. Qed.

(** A file that cannot be opened counts 1. *)
Lemma scan_segmentfile_open_fails (filename dirpath : string) (w w1 : world) :
  strstr filename "pg_internal.init" = false ->
  sys_open filename w = (None, w1) ->
  scan_segmentfile filename dirpath w = (1, w1).
Proof. intros Hname Hopen. unfold scan_segmentfile. now rewrite Hname, Hopen. Qed.

(** Whatever a regular file counts, the loop goes on with the entries listed
    after it. *)
Lemma scan_entries_regular (scan : string -> world -> option (Z * world))
    (dirpath d_name : string) (rest : list string) (statbuf : st_mode)
    (found n : Z) (w w1 w2 : world) :
  sys_lstat d_name statbuf w = (S_IFREG, w1) ->
  scan_segmentfile d_name dirpath w1 = (n, w2) ->
  scan_entries scan dirpath (d_name :: rest) statbuf found w =
  scan_entries scan dirpath rest S_IFREG (wrap32 (found + n)) w2.
Proof. intros Hl Hs. cbn [scan_entries]. now rewrite Hl, Hs. Qed.

End ReadLoop.

(** ** strstr *)

Lemma strstr_eq (haystack needle : string) :
  strstr haystack needle =
  String.prefix needle haystack ||
  match haystack with
  | EmptyString => false
  | String _ rest => strstr rest needle
  end.
Proof. destruct haystack; reflexivity. Qed.

Lemma prefix_append (needle post : string) :
  String.prefix needle (needle ++ post)%string = true.
Proof.
  induction needle as [|a needle IH]; [now destruct post|].
  cbn. destruct (ascii_dec a a) as [_|N]; [exact IH | now contradiction N].
Qed.

Lemma prefix_split (needle : string) :
  forall haystack, String.prefix needle haystack = true ->
  exists post, haystack = (needle ++ post)%string.
Proof.
  induction needle as [|a needle IH]; intros haystack H.
  - now exists haystack.
  - destruct haystack as [|b haystack]; cbn in H; [discriminate|].
    destruct (ascii_dec a b) as [->|_]; [|discriminate].
    destruct (IH _ H) as [post ->]. now exists post.
Qed.

(** [strstr] finds the needle exactly in the names that contain it. *)
Lemma strstr_contains (haystack needle : string) :
  strstr haystack needle = true <->
  exists pre post, haystack = (pre ++ needle ++ post)%string.
Proof.
  split.
  - induction haystack as [|a haystack IH]; rewrite strstr_eq; intros H;
      apply orb_true_iff in H; destruct H as [H|H]; try discriminate.
    + destruct (prefix_split _ _ H) as [post ->]. now exists EmptyString, post.
    + destruct (prefix_split _ _ H) as [post ->]. now exists EmptyString, post.
    + destruct (IH H) as (pre & post & ->). now exists (String a pre), post.
  - intros (pre & post & ->).
    induction pre as [|a pre IH]; rewrite strstr_eq.
    + cbn [String.append]. now rewrite prefix_append.
    + cbn [String.append]. rewrite IH. apply orb_true_r.
Qed.

(** ** Operations that leave the process where it is *)

Lemma same_place_refl (w : world) : same_place w w.
Proof. repeat split. Qed.

Lemma same_place_trans (w1 w2 w3 : world) :
  same_place w1 w2 -> same_place w2 w3 -> same_place w1 w3.
Proof.
  intros (R1 & C1 & U1 & T1) (R2 & C2 & U2 & T2).
  repeat split; congruence.
Qed.

Lemma same_place_log (e : event) (w : world) : quiet e -> same_place w (log e w).
Proof.
  intros Hq. repeat split. cbn [log w_trace last_chdir].
  destruct e as [cwd dirpath ok|cwd dirpath [|]| | | | | |]; try reflexivity.
  destruct Hq.
Qed.

Ltac quiet_step := apply same_place_log; exact I.

Lemma same_place_namei (w w' : world) (p : string) :
  same_place w w' -> namei w' p = namei w p.
Proof. intros (R & C & _). unfold namei. now rewrite R, C. Qed.


Lemma sys_lstat_same_place (name : string) (statbuf : st_mode) (w : world) :
  same_place w (snd (sys_lstat name statbuf w)).
Proof.
  unfold sys_lstat. destruct (namei w name) as [[q x]|];
    quiet_step.
Qed.

Lemma sys_open_same_place (filename : string) (w : world) :
  same_place w (snd (sys_open filename w)).
Proof.
  unfold sys_open.
  destruct (namei w filename) as [[q [f|[|] s l c|]]|];
    try destruct (f_openable f); quiet_step.
Qed.

Lemma sys_opendir_inv (dirpath : string) (w : world) :
  (exists q s l c,
     namei w dirpath = Some (q, Dir true s l c) /\
     sys_opendir dirpath w =
       (Some l, log (EvOpendir (w_cwd w) dirpath true) w)) \/
  sys_opendir dirpath w = (None, log (EvOpendir (w_cwd w) dirpath false) w).
Proof.
  unfold sys_opendir.
  destruct (namei w dirpath) as [[q [f|[|] s l c|]]|]; auto.
  left. now exists q, s, l, c.
Qed.

(** After [opendir], [chdir] on the same path enters the directory when the
    process may search it, and leaves the process where it is otherwise. *)
Lemma sys_chdir_after_opendir (dirpath : string) (w : world) (q : path)
    (r s : bool) (l : list string) (c : list (string * node)) :
  namei w dirpath = Some (q, Dir r s l c) ->
  sys_chdir dirpath (log (EvOpendir (w_cwd w) dirpath true) w) =
  enter q s
    (logs [EvOpendir (w_cwd w) dirpath true; EvChdir (w_cwd w) dirpath s] w).
Proof.
  intros H. unfold sys_chdir.
  change (namei (log (EvOpendir (w_cwd w) dirpath true) w) dirpath)
    with (namei w dirpath).
  rewrite H. now destruct s.
Qed.



Section Walk.

Context {pg : Postgres}.

Lemma read_pages_same_place (filename : string) (reads : list read_result) :
  forall (blkno c : Z) (w : world),
  same_place w (snd (read_pages filename reads blkno c w)).
Proof.
  induction reads as [|[bs|] reads IH]; intros blkno c w; cbn [read_pages].
  - quiet_step.
  - destruct (_ =? BLCKSZ).
    + eapply same_place_trans; [|apply IH].
      eapply same_place_trans; quiet_step.
    + destruct (0 <? _); quiet_step.
  - quiet_step.
Qed.

Lemma scan_segmentfile_same_place (filename dirpath : string) (w : world) :
  same_place w (snd (scan_segmentfile filename dirpath w)).
Proof.
  unfold scan_segmentfile.
  destruct (strstr filename "pg_internal.init"); [apply same_place_refl|].
  pose proof (sys_open_same_place filename w) as Ho.
  destruct (sys_open filename w) as [[reads|] w1]; cbn [snd] in *; [|exact Ho].
  pose proof (read_pages_same_place filename reads 0 0 w1) as Hr.
  destruct (read_pages filename reads 0 0 w1) as [n w2].
  cbn [snd] in *.
  eapply same_place_trans; [exact Ho|].
  eapply same_place_trans; [exact Hr|]. quiet_step.
Qed.



(** In a directory from which the scan does not descend the loop returns and
    leaves the process where it is. *)
Lemma scan_entries_leaf (scan : string -> world -> option (Z * world))
    (dirpath : string) (root : node) (q : path) (entries : list string) :
  leaf_listing root q entries ->
  forall (statbuf : st_mode) (found : Z) (w : world),
  w_root w = root -> w_cwd w = q ->
  exists n w',
    scan_entries scan dirpath entries statbuf found w = Some (n, w') /\
    same_place w w'.
Proof.
  induction 1 as [|d_name rest Hd Hrest IH]; intros statbuf found w Hroot Hcwd;
    cbn [scan_entries].
  - eexists _, _. split; [reflexivity|]. quiet_step.
  - pose proof (sys_lstat_same_place d_name statbuf w) as Hl.
    assert (Hmode : d_name = "." \/ d_name = ".." \/
                    fst (sys_lstat d_name statbuf w) <> S_IFDIR).
    { destruct Hd as [Hd|[Hd|(q' & x & Hres & Hmode)]]; auto.
      right; right. unfold sys_lstat, namei. rewrite Hroot, Hcwd, Hres.
      exact Hmode. }
    destruct (sys_lstat d_name statbuf w) as [statbuf1 w1].
    cbn [fst snd] in *.
    assert (Hroot1 : w_root w1 = root) by (rewrite <- Hroot; apply Hl).
    assert (Hcwd1 : w_cwd w1 = q) by (rewrite <- Hcwd; apply Hl).
    destruct statbuf1.
    + assert (Hdot : String.eqb "." d_name || String.eqb ".." d_name = true).
      { destruct Hmode as [->|[->|Hne]]; [reflexivity|reflexivity|].
        now contradiction Hne. }
      rewrite Hdot.
      destruct (IH S_IFDIR found w1 Hroot1 Hcwd1) as (n & w' & Hrun & Hsame).
      exists n, w'. split; [exact Hrun|].
      eapply same_place_trans; eauto.
    + pose proof (scan_segmentfile_same_place d_name dirpath w1) as Hs.
      destruct (scan_segmentfile d_name dirpath w1) as [m w2].
      cbn [snd] in Hs.
      destruct (IH S_IFREG (wrap32 (found + m)) w2) as (n & w' & Hrun & Hsame).
      * rewrite <- Hroot1. apply Hs.
      * rewrite <- Hcwd1. apply Hs.
      * exists n, w'. split; [exact Hrun|].
        eapply same_place_trans; [exact Hl|].
        eapply same_place_trans; eauto.
    + destruct (IH S_IFOTHER found w1 Hroot1 Hcwd1) as (n & w' & Hrun & Hsame).
      exists n, w'. split; [exact Hrun|].
      eapply same_place_trans; eauto.
Qed.

(** A directory that can be opened has its entries read, from inside it
    when the process may search it and from where the process is otherwise. *)
Lemma scan_directory_opens (fuel : nat) (dirpath : string) (w : world)
    (q : path) (s : bool) (l : list string) (c : list (string * node)) :
  namei w dirpath = Some (q, Dir true s l c) ->
  scan_directory (S fuel) dirpath w =
  scan_entries (scan_directory fuel) dirpath l (w_uninit w) 0
    (enter q s
       (logs [EvOpendir (w_cwd w) dirpath true; EvChdir (w_cwd w) dirpath s] w)).
Proof.
  intros Hn. cbn [scan_directory].
  destruct (sys_opendir_inv dirpath w) as [(q1 & s1 & l1 & c1 & Hn1 & Ho)|Ho].
  - rewrite Ho. rewrite Hn in Hn1. inversion Hn1; subst.
    now rewrite (sys_chdir_after_opendir _ _ _ _ _ _ _ Hn).
  - unfold sys_opendir in Ho. rewrite Hn in Ho. discriminate.
Qed.

(** A directory that can be opened and searched is made the working
    directory, and then its entries are read. *)
Lemma scan_directory_enters (fuel : nat) (dirpath : string) (w : world)
    (q : path) (l : list string) (c : list (string * node)) :
  namei w dirpath = Some (q, Dir true true l c) ->
  scan_directory (S fuel) dirpath w =
  scan_entries (scan_directory fuel) dirpath l (w_uninit w) 0
    (set_cwd q
       (logs [EvOpendir (w_cwd w) dirpath true;
              EvChdir (w_cwd w) dirpath true] w)).
Proof. intros Hn. exact (scan_directory_opens fuel dirpath w q true l c Hn). Qed.

(** The scan of a directory it does not descend from returns, whatever the
    fuel, and leaves the process in the directory its entries were looked up
    from: the directory itself when it may be searched, and the one the
    process was in otherwise. *)
Lemma scan_directory_leaf (fuel : nat) (dirpath : string) (w : world)
    (q : path) (s : bool) (l : list string) (c : list (string * node)) :
  namei w dirpath = Some (q, Dir true s l c) ->
  leaf_listing (w_root w) (if s then q else w_cwd w) l ->
  exists n w',
    scan_directory (S fuel) dirpath w = Some (n, w') /\
    w_cwd w' = (if s then q else w_cwd w) /\ w_root w' = w_root w.
Proof.
  intros Hn Hleaf. rewrite (scan_directory_opens _ _ _ _ _ _ _ Hn).
  destruct (scan_entries_leaf (scan_directory fuel) dirpath (w_root w)
              (if s then q else w_cwd w) l Hleaf (w_uninit w) 0
              (enter q s
                 (logs [EvOpendir (w_cwd w) dirpath true;
                        EvChdir (w_cwd w) dirpath s] w)))
    as (n & w' & Hrun & Hsame); [now destruct s|now destruct s|].
  exists n, w'. split; [exact Hrun|].
  destruct Hsame as (R & C & _). rewrite R, C. now destruct s.
Qed.

(** More fuel does not change what a call returns. *)
Lemma scan_entries_mono (scan scan' : string -> world -> option (Z * world))
    (dirpath : string) :
  (forall p w r, scan p w = Some r -> scan' p w = Some r) ->
  forall (entries : list string) (statbuf : st_mode) (found : Z) (w : world)
         (r : Z * world),
  scan_entries scan dirpath entries statbuf found w = Some r ->
  scan_entries scan' dirpath entries statbuf found w = Some r.
Proof.
  intros Hscan. induction entries as [|d_name rest IH];
    intros statbuf found w r Hrun; cbn [scan_entries] in *; [exact Hrun|].
  destruct (sys_lstat d_name statbuf w) as [statbuf1 w1].
  destruct statbuf1.
  - destruct (String.eqb "." d_name || String.eqb ".." d_name); [now apply IH|].
    destruct (scan (snprintf_path MAX_DIR_LENGTH dirpath d_name) w1)
      as [[m w2]|] eqn:Hsub; [|discriminate].
    rewrite (Hscan _ _ _ Hsub). now apply IH.
  - destruct (scan_segmentfile d_name dirpath w1) as [m w2]. now apply IH.
  - now apply IH.
Qed.

Lemma scan_directory_mono (fuel : nat) :
  forall (dirpath : string) (w : world) (r : Z * world),
  scan_directory fuel dirpath w = Some r ->
  scan_directory (S fuel) dirpath w = Some r.
Proof.
  induction fuel as [|fuel IH]; intros dirpath w r Hrun; [discriminate|].
  cbn [scan_directory] in *.
  destruct (sys_opendir dirpath w) as [[entries|] w1]; [|exact Hrun].
  eapply scan_entries_mono; [|exact Hrun]. exact IH.
Qed.

Lemma scan_entries_keeps_tree (scan : string -> world -> option (Z * world))
    (dirpath : string) :
  (forall p w n w', scan p w = Some (n, w') ->
     w_root w' = w_root w /\ w_uninit w' = w_uninit w) ->
  forall (entries : list string) (statbuf : st_mode) (found : Z) (w : world)
         (n : Z) (w' : world),
  scan_entries scan dirpath entries statbuf found w = Some (n, w') ->
  w_root w' = w_root w /\ w_uninit w' = w_uninit w.
Proof.
  intros Hscan. induction entries as [|d_name rest IH];
    intros statbuf found w n w' Hrun; cbn [scan_entries] in Hrun.
  - inversion Hrun; subst. now split.
  - pose proof (sys_lstat_same_place d_name statbuf w) as (R & _ & U & _).
    destruct (sys_lstat d_name statbuf w) as [statbuf1 w1]. cbn [snd] in *.
    destruct statbuf1.
    + destruct (String.eqb "." d_name || String.eqb ".." d_name).
      * rewrite <- R, <- U. eapply IH; eauto.
      * destruct (scan (snprintf_path MAX_DIR_LENGTH dirpath d_name) w1)
          as [[m w2]|] eqn:Hsub; [|discriminate].
        destruct (Hscan _ _ _ _ Hsub) as [R2 U2].
        rewrite <- R, <- U, <- R2, <- U2. eapply IH; eauto.
    + pose proof (scan_segmentfile_same_place d_name dirpath w1)
        as (R2 & _ & U2 & _).
      destruct (scan_segmentfile d_name dirpath w1) as [m w2]. cbn [snd] in *.
      rewrite <- R, <- U, <- R2, <- U2. eapply IH; eauto.
    + rewrite <- R, <- U. eapply IH; eauto.
Qed.

(** The scan reads the file tree and does not change it. *)
Lemma scan_directory_keeps_tree (fuel : nat) :
  forall (dirpath : string) (w : world) (n : Z) (w' : world),
  scan_directory fuel dirpath w = Some (n, w') ->
  w_root w' = w_root w /\ w_uninit w' = w_uninit w.
Proof.
  induction fuel as [|fuel IH]; intros dirpath w n w' Hrun;
    cbn [scan_directory] in Hrun; [discriminate|].
  destruct (sys_opendir_inv dirpath w) as [(q & s & l & c & Hn & Ho)|Ho];
    rewrite Ho in Hrun.
  - rewrite (sys_chdir_after_opendir _ _ _ _ _ _ _ Hn) in Hrun.
    apply (scan_entries_keeps_tree _ _ IH) in Hrun.
    destruct Hrun as [R U]. rewrite R, U. now destruct s.
  - inversion Hrun; subst. now split.
Qed.

End Walk.

(** C2, as the specification states it, fails on the name ["5"]: its
    trailing run of digits is worth 5 and the ordinal is 0. *)
Lemma parse_segment_number_name_5 :
  decimal (trailing_digits (chars "5")) = 5 /\ parse_segment_number "5" <> 5.
Proof. split; [reflexivity | vm_compute; discriminate]. Qed.

(** C2 (amended): a name made of digits only, and the empty name, have
    ordinal 0; for a name with a character that is no digit the ordinal is
    the value of the trailing run of decimal digits, as long as that value
    is within the range of [int] (0 when the name ends in no digit). *)
Theorem parse_segment_number_trailing_digits (filename : string) :
  (forallb isdigit (chars filename) = true ->
   parse_segment_number filename = 0) /\
  (forallb isdigit (chars filename) = false ->
   decimal (trailing_digits (chars filename)) <= INT_MAX ->
   parse_segment_number filename = decimal (trailing_digits (chars filename))).
Proof.
  split; [apply parse_segment_number_all_digits|].
  intros Hnd Hmax.
  destruct (split_at_last_non_digit _ Hnd) as (pre & c & ds & Hl & Hc & Hds).
  rewrite Hl, trailing_digits_stop in * by assumption.
  rewrite (parse_segment_number_suffix filename pre c ds) by assumption.
  rewrite atoi_digits by assumption.
  apply wrap32_small. pose proof (decimal_nonneg ds Hds).
  unfold INT_MAX in Hmax. lia.
Qed.

Lemma parse_segment_number_trailing_digits_witness :
  parse_segment_number "16384" = 0 /\
  parse_segment_number "16384.5" = 5 /\
  parse_segment_number "16384_fsm" = 0.
Proof.
  split; [|split].
  - apply (proj1 (parse_segment_number_trailing_digits "16384")). reflexivity.
  - apply (proj2 (parse_segment_number_trailing_digits "16384.5"));
      [reflexivity | vm_compute; discriminate].
  - apply (proj2 (parse_segment_number_trailing_digits "16384_fsm"));
      [reflexivity | vm_compute; discriminate].
Defined.

Section Claims.

Context {pg : Postgres}.


(** C1: a page of exactly [BLCKSZ] bytes, read as page [blkno] of the file
    [filename], is verified at the absolute block number
    B = (ordinal * 131072 + blkno) mod 2^32, the ordinal being the one
    [parse_segment_number] gives the name.  The page is not corrupted when its
    stored checksum is 0; otherwise it is corrupted exactly when the stored
    checksum differs from the checksum computed from the page and B, and it is
    not corrupted when the two are equal. *)
Theorem is_page_corrupted_classification (page : list byte) (blkno : Z)
    (filename : string) (B : Z) :
  full_page page ->
  B = (parse_segment_number filename * 131072 + blkno) mod 2 ^ 32 ->
  (pd_checksum page = 0 -> is_page_corrupted page blkno filename = false) /\
  (pd_checksum page <> 0 ->
   (is_page_corrupted page blkno filename = true <->
    pd_checksum page <> pg_checksum_page page B) /\
   (pd_checksum page = pg_checksum_page page B ->
    is_page_corrupted page blkno filename = false)).
Proof.
  intros _ HB.
  assert (Hblk : checksum_blkno filename blkno = B).
  { rewrite HB. unfold checksum_blkno, segmentBlockOffset, wrap32.
    rewrite Z.add_mod_idemp_l by lia.
    now rewrite (Z.mul_comm RELSEG_SIZE). }
  unfold is_page_corrupted. rewrite Hblk.
  destruct (Z.eqb_spec (pd_checksum page) 0) as [E0|N0];
    destruct (Z.eqb_spec (pd_checksum page) (pg_checksum_page page B))
      as [E|N];
    cbn [negb andb]; repeat split; intros; try congruence; try discriminate.
Qed.

(** C3 (amended): the block number a page is verified at is
    ordinal * blocks_per_segment + i reduced modulo 2^32, where the ordinal is
    the one [parse_segment_number] gives the file name, i is the 0-based index
    of the page in the file and blocks_per_segment = segmentSize / BLCKSZ =
    131072.  Page 3 of the file ["16384.5"] is verified at block 655363; page 3
    of the file ["5"], whose ordinal is 0, at block 3. *)
Theorem checksum_block_number (filename : string) :
  segmentSize / BLCKSZ = 131072 /\
  (forall (i : Z) (page : list byte),
     checksum_blkno filename i =
       wrap32 (parse_segment_number filename * (segmentSize / BLCKSZ) + i) /\
     is_page_corrupted page i filename =
       negb (pd_checksum page =? 0) &&
       negb (pd_checksum page =? pg_checksum_page page (checksum_blkno filename i))) /\
  (forall (pages : list (list byte)) (rest : list read_result) (w : world),
     Forall full_page pages ->
     Z.of_nat (List.length pages) < 2 ^ 32 ->
     read_pages filename (map RData pages ++ rest) 0 0 w =
     read_pages filename rest (Z.of_nat (List.length pages))
       (corrupted_pages filename pages)
       (logs (page_events filename 0 (List.length pages)) w)) /\
  checksum_blkno "16384.5" 3 = 655363 /\
  checksum_blkno "5" 3 = 3.
Proof.
  split; [reflexivity|]. split; [|split; [|split; reflexivity]].
  - intros i page. split.
    + unfold checksum_blkno, segmentBlockOffset, wrap32.
      change (segmentSize / BLCKSZ) with RELSEG_SIZE.
      rewrite Z.add_mod_idemp_l by lia.
      now rewrite (Z.mul_comm RELSEG_SIZE).
    + unfold is_page_corrupted.
      destruct (negb (pd_checksum page =? 0) &&
                negb (pd_checksum page =?
                      pg_checksum_page page (checksum_blkno filename i)));
        reflexivity.
  - intros pages rest w. apply read_pages_full_file.
Qed.

(** C6: when the reads of a segment file return full pages and then fewer
    than [BLCKSZ] bytes, a last read of 1 to [BLCKSZ - 1] bytes adds exactly 1
    to the count of the corrupted pages read before it, no checksum is
    computed for it and the next operation is the close of the file, whatever
    further reads would have returned; a last read of 0 bytes adds nothing. *)
Theorem scan_segmentfile_last_read (filename dirpath : string)
    (pages : list (list byte)) (w w1 : world) :
  strstr filename "pg_internal.init" = false ->
  Forall full_page pages ->
  Z.of_nat (List.length pages) < 2 ^ 32 - 1 ->
  (forall (short : list byte) (rest : list read_result),
     1 <= Z.of_nat (List.length short) <= BLCKSZ - 1 ->
     sys_open filename w = (Some (map RData pages ++ RData short :: rest), w1) ->
     scan_segmentfile filename dirpath w =
     (corrupted_pages filename pages + 1,
      logs (page_events filename 0 (List.length pages)
              ++ [EvRead (Z.of_nat (List.length short)); EvClose]) w1)) /\
  (forall (rest : list read_result),
     sys_open filename w = (Some (map RData pages ++ RData [] :: rest), w1) ->
     scan_segmentfile filename dirpath w =
     (corrupted_pages filename pages,
      logs (page_events filename 0 (List.length pages) ++ [EvRead 0; EvClose]) w1)) /\
  (sys_open filename w = (Some (map RData pages), w1) ->
   scan_segmentfile filename dirpath w =
   (corrupted_pages filename pages,
    logs (page_events filename 0 (List.length pages) ++ [EvRead 0; EvClose]) w1)).
Proof.
  intros Hname Hfull Hlen.
  pose proof (corrupted_from_bounds filename pages 0) as Hb.
  fold (corrupted_pages filename pages) in Hb.
  unfold scan_segmentfile. rewrite Hname.
  split; [|split].
  - intros short rest Hshort Hopen. rewrite Hopen.
    rewrite read_pages_full_file by (auto; lia).
    rewrite read_pages_short by lia.
    destruct (Z.ltb_spec 0 (Z.of_nat (List.length short))) as [_|Hn]; [|lia].
    rewrite wrap32_small by lia.
    now rewrite logs_app.
  - intros rest Hopen. rewrite Hopen.
    rewrite read_pages_full_file by (auto; lia).
    rewrite read_pages_short by (cbn [List.length]; unfold BLCKSZ; lia).
    now rewrite logs_app.
  - intros Hopen. rewrite Hopen.
    rewrite <- (app_nil_r (map RData pages)).
    rewrite read_pages_full_file by (auto; lia).
    now rewrite logs_app.
Qed.

(** C9: a file whose name contains ["pg_internal.init"] anywhere is skipped:
    [scan_segmentfile] returns 0 and performs no operation at all, so the
    file is not opened, and the entry adds nothing to the count of the
    directory it is listed in. *)
Theorem internal_init_name_skipped (filename dirpath : string) (w : world) :
  (exists pre post, filename = (pre ++ "pg_internal.init" ++ post)%string) ->
  scan_segmentfile filename dirpath w = (0, w) /\
  (forall (scan : string -> world -> option (Z * world)) (rest : list string)
          (statbuf : st_mode) (found : Z) (w0 : world),
     sys_lstat filename statbuf w0 = (S_IFREG, w) ->
     0 <= found < 2 ^ 32 ->
     scan_entries scan dirpath (filename :: rest) statbuf found w0 =
     scan_entries scan dirpath rest S_IFREG found w).
Proof.
  intros Hname. apply strstr_contains in Hname.
  assert (Hskip : scan_segmentfile filename dirpath w = (0, w))
    by (unfold scan_segmentfile; now rewrite Hname).
  split; [exact Hskip|].
  intros scan rest statbuf found w0 Hl Hfound.
  cbn [scan_entries]. rewrite Hl, Hskip, Z.add_0_r.
  now rewrite wrap32_small.
Qed.



End Claims.

(** * The properties on the worked examples *)

Lemma is_page_corrupted_classification_witness :
  full_page bad_page /\
  655363 = (parse_segment_number "16384.5" * 131072 + 3) mod 2 ^ 32 /\
  (is_page_corrupted bad_page 3 "16384.5" = true <->
   pd_checksum bad_page <> pg_checksum_page bad_page 655363).
Proof.
  split; [reflexivity|]. split; [vm_compute; reflexivity|].
  apply (is_page_corrupted_classification bad_page 3 "16384.5" 655363);
    [reflexivity | vm_compute; reflexivity | vm_compute; discriminate].
Defined.

(** C3, as the specification states it, fails on the file named ["5"]: its
    page 3 is verified at block 3, not at block 655363. *)
Lemma checksum_blkno_name_5 :
  5 * (segmentSize / BLCKSZ) + 3 = 655363 /\ checksum_blkno "5" 3 <> 655363.
Proof. split; [reflexivity | vm_compute; discriminate]. Qed.

Lemma checksum_block_number_witness :
  fst (read_pages "16384.5"
         (map RData [new_page; bad_page; new_page; bad_page] ++ []) 0 0 world_a)
    = 2 /\
  checksum_blkno "16384.5" 3 = wrap32 (5 * 131072 + 3).
Proof.
  destruct (checksum_block_number "16384.5")
    as (Hbps & Hblk & Hread & _).
  split.
  - rewrite Hread.
    + vm_compute. reflexivity.
    + repeat constructor.
    + vm_compute. reflexivity.
  - rewrite (proj1 (Hblk 3 new_page)), Hbps. reflexivity.
Defined.

(** C4: the names of a free-space map and of a visibility map are not
    skipped; each of these files, holding one page with a wrong checksum, is
    scanned and counts 1. *)
Theorem fsm_and_vm_files_are_scanned :
  fst (scan_segmentfile "16384_fsm" "/base/1" fsm_world) = 1 /\
  fst (scan_segmentfile "16384_vm" "/base/1" fsm_world) = 1.
Proof. split; vm_compute; reflexivity. Qed.

(** C5: a file that opens and whose second read fails, after one good page,
    counts 0: the failed read ends the scan like the end of the file. *)
Theorem read_failure_is_not_counted :
  fst (scan_segmentfile "16384" "/base/1" read_error_world) = 0.
Proof. vm_compute. reflexivity. Qed.

Lemma scan_segmentfile_last_read_witness :
  fst (scan_segmentfile "16384" "/base/1" short_read_world)
  = corrupted_pages "16384" [good_page_0; bad_page] + 1.
Proof.
  pose proof (scan_segmentfile_last_read "16384" "/base/1"
                [good_page_0; bad_page] short_read_world
                (log (EvOpen ["base"; "1"] "16384" true) short_read_world))
    as H.
  destruct H as [H _].
  - reflexivity.
  - repeat constructor.
  - vm_compute. reflexivity.
  - rewrite (H [x01; x02; x03] [RData new_page]).
    + reflexivity.
    + vm_compute. split; discriminate.
    + reflexivity.
Defined.

(** C7: in [/base], database 1 is listed before or after database 16384.
    The files below [/base] contribute 3 when scanned each on its own; the
    walk returns 2 for the first order and 3 for the second. *)
Theorem walk_depends_on_listing_order :
  Permutation listing_a listing_b /\
  descendants_total "base" (w_root world_a) = 3 /\
  descendants_total "base" (w_root world_b) = 3 /\
  option_map fst (scan_directory 3 "/base" world_a) = Some 2 /\
  option_map fst (scan_directory 3 "/base" world_b) = Some 3.
Proof.
  split; [|repeat split; vm_compute; reflexivity].
  unfold listing_a, listing_b. do 2 apply perm_skip. apply perm_swap.
Qed.


Lemma internal_init_name_skipped_witness :
  scan_segmentfile "pg_internal.init.bak" "/base/1" fsm_world
    = (0, fsm_world) /\
  scan_segmentfile "mypg_internal.init2" "/base/1" fsm_world
    = (0, fsm_world).
Proof.
  split.
  - apply (internal_init_name_skipped "pg_internal.init.bak").
    now exists "", ".bak".
  - apply (internal_init_name_skipped "mypg_internal.init2").
    now exists "my", "2".
Defined.



(** * Further properties of the code *)

(** ** Block addressing *)

Lemma parse_segment_number_range (filename : string) :
  0 <= parse_segment_number filename < 2 ^ 32.
Proof.
  unfold parse_segment_number.
  destruct (strlen filename); [lia|].
  destruct (back_over_digits (chars filename) n); [apply wrap32_range | lia].
Qed.

(** X1: the ordinal of a file, and with it the block number each of its
    pages is verified at, depends only on the digits after the last character
    of the name that is no digit: what comes before, the number of the
    relation, plays no part. *)
Theorem ordinal_depends_on_suffix_only (f1 f2 : string)
    (pre1 pre2 : list ascii) (c1 c2 : ascii) (ds : list ascii) :
  chars f1 = pre1 ++ c1 :: ds ->
  chars f2 = pre2 ++ c2 :: ds ->
  isdigit c1 = false -> isdigit c2 = false ->
  forallb isdigit ds = true ->
  parse_segment_number f1 = parse_segment_number f2 /\
  forall i : Z, checksum_blkno f1 i = checksum_blkno f2 i.
Proof.
  intros H1 H2 Hc1 Hc2 Hds.
  assert (E : parse_segment_number f1 = parse_segment_number f2).
  { rewrite (parse_segment_number_suffix f1 pre1 c1 ds) by assumption.
    now rewrite (parse_segment_number_suffix f2 pre2 c2 ds) by assumption. }
  split; [exact E|].
  intros i. unfold checksum_blkno, segmentBlockOffset. now rewrite E.
Qed.

(** X2: for ordinals below 32768 and page indexes below [RELSEG_SIZE] the
    block number tells the ordinal and the index: two pages of two files are
    verified at the same block number only when the files have the same
    ordinal and the pages the same index. *)
Theorem checksum_blkno_injective (f1 f2 : string) (i j : Z) :
  parse_segment_number f1 < 32768 ->
  parse_segment_number f2 < 32768 ->
  0 <= i < RELSEG_SIZE -> 0 <= j < RELSEG_SIZE ->
  checksum_blkno f1 i = checksum_blkno f2 j ->
  parse_segment_number f1 = parse_segment_number f2 /\ i = j.
Proof.
  intros H1 H2 Hi Hj.
  pose proof (parse_segment_number_range f1) as R1.
  pose proof (parse_segment_number_range f2) as R2.
  unfold checksum_blkno, segmentBlockOffset.
  unfold RELSEG_SIZE in *.
  rewrite (wrap32_small (131072 * parse_segment_number f1)) by lia.
  rewrite (wrap32_small (131072 * parse_segment_number f2)) by lia.
  rewrite !wrap32_small by lia.
  intros E. lia.
Qed.

Section FileScan.

Context {pg : Postgres}.

(** ** The count of a file *)

Lemma wrap32_le (z : Z) : 0 <= z -> wrap32 z <= z.
Proof. intros H. unfold wrap32. apply Z.mod_le; lia. Qed.

Lemma read_pages_count_bound (filename : string) (reads : list read_result) :
  forall (blkno c : Z) (w : world),
  0 <= c ->
  0 <= fst (read_pages filename reads blkno c w)
    <= c + Z.of_nat (List.length reads).
Proof.
  induction reads as [|[bs|] reads IH]; intros blkno c w Hc;
    cbn [read_pages List.length fst]; try lia.
  destruct (_ =? BLCKSZ).
  - pose proof (wrap32_range (c + 1)). pose proof (wrap32_le (c + 1)).
    destruct (is_page_corrupted _ blkno filename).
    + specialize (IH (wrap32 (blkno + 1)) (wrap32 (c + 1))
                    (log (EvChecksum (checksum_blkno filename blkno))
                       (log (EvRead (Z.of_nat (List.length
                          (firstn (Z.to_nat BLCKSZ) bs)))) w))).
      lia.
    + specialize (IH (wrap32 (blkno + 1)) c
                    (log (EvChecksum (checksum_blkno filename blkno))
                       (log (EvRead (Z.of_nat (List.length
                          (firstn (Z.to_nat BLCKSZ) bs)))) w)) Hc).
      lia.
  - pose proof (wrap32_range (c + 1)). pose proof (wrap32_le (c + 1)).
    destruct (0 <? _); cbn [fst]; lia.
Qed.

(** X3: a file that opens never counts more than the number of reads that
    returned something or failed: the count lies between 0 and the number of
    results the reads of the file have before its end. *)
Theorem scan_segmentfile_count_bound (filename dirpath : string)
    (reads : list read_result) (w w1 : world) :
  sys_open filename w = (Some reads, w1) ->
  0 <= fst (scan_segmentfile filename dirpath w) <= Z.of_nat (List.length reads).
Proof.
  intros Hopen. unfold scan_segmentfile.
  destruct (strstr filename "pg_internal.init"); [cbn [fst]; lia|].
  rewrite Hopen.
  pose proof (read_pages_count_bound filename reads 0 0 w1) as Hb.
  destruct (read_pages filename reads 0 0 w1) as [n w2]. cbn [fst] in *. lia.
Qed.

Lemma corrupted_from_zero (filename : string) (pages : list (list byte)) :
  forall k : nat,
  corrupted_from filename k pages = 0 <->
  (forall (i : nat) (page : list byte),
     nth_error pages i = Some page ->
     is_page_corrupted page (Z.of_nat (k + i)) filename = false).
Proof.
  induction pages as [|p pages IH]; intros k.
  - split; [intros _ [|i] page H; discriminate | reflexivity].
  - rewrite corrupted_from_cons.
    pose proof (corrupted_from_bounds filename pages (S k)) as Hb.
    split.
    + intros H i page Hi.
      destruct (is_page_corrupted p (Z.of_nat k) filename) eqn:Hp; [lia|].
      destruct i as [|i]; cbn [nth_error] in Hi.
      * inversion Hi; subst. now rewrite Nat.add_0_r.
      * rewrite Nat.add_succ_r. apply (proj1 (IH (S k))); [lia | exact Hi].
    + intros H.
      assert (Hp : is_page_corrupted p (Z.of_nat k) filename = false).
      { replace k with (k + 0)%nat at 1 by lia. now apply (H 0%nat). }
      rewrite Hp, (proj2 (IH (S k))); [reflexivity|].
      intros i page Hi.
      replace (S k + i)%nat with (k + S i)%nat by lia. now apply (H (S i)).
Qed.

(** X4: a file that is read as full pages up to its end, fewer than 2^32 of
    them, counts 0 exactly when none of its pages is corrupted at its index;
    in particular a file of pages whose stored checksum is 0 counts 0. *)
Theorem scan_segmentfile_clean (filename dirpath : string)
    (pages : list (list byte)) (w w1 : world) :
  strstr filename "pg_internal.init" = false ->
  sys_open filename w = (Some (map RData pages), w1) ->
  Forall full_page pages ->
  Z.of_nat (List.length pages) < 2 ^ 32 ->
  (fst (scan_segmentfile filename dirpath w) = 0 <->
   forall (i : nat) (page : list byte),
     nth_error pages i = Some page ->
     is_page_corrupted page (Z.of_nat i) filename = false) /\
  (Forall (fun page => pd_checksum page = 0) pages ->
   fst (scan_segmentfile filename dirpath w) = 0).
Proof.
  intros Hname Hopen Hfull Hlen.
  assert (E : fst (scan_segmentfile filename dirpath w) =
              corrupted_pages filename pages).
  { unfold scan_segmentfile. rewrite Hname, Hopen.
    rewrite <- (app_nil_r (map RData pages)).
    rewrite read_pages_full_file by assumption. reflexivity. }
  rewrite E. unfold corrupted_pages.
  split; [apply (corrupted_from_zero filename pages 0)|].
  intros Hnew. apply (corrupted_from_zero filename pages 0).
  intros i page Hi. apply nth_error_In in Hi.
  rewrite Forall_forall in Hnew. specialize (Hnew page Hi).
  unfold is_page_corrupted. rewrite Hnew. reflexivity.
Qed.

(** X5: a read that fails ends the scan of the file: the count is the number
    of corrupted pages among the full pages read before it, nothing is added
    for the failure, whatever later reads would have returned, and the file is
    closed. *)
Theorem scan_segmentfile_read_error (filename dirpath : string)
    (pages : list (list byte)) (rest : list read_result) (w w1 : world) :
  strstr filename "pg_internal.init" = false ->
  sys_open filename w = (Some (map RData pages ++ RError :: rest), w1) ->
  Forall full_page pages ->
  Z.of_nat (List.length pages) < 2 ^ 32 ->
  scan_segmentfile filename dirpath w =
  (corrupted_pages filename pages,
   logs (page_events filename 0 (List.length pages) ++ [EvRead (-1); EvClose]) w1).
Proof.
  intros Hname Hopen Hfull Hlen.
  unfold scan_segmentfile. rewrite Hname, Hopen.
  rewrite read_pages_full_file by assumption.
  rewrite read_pages_error. now rewrite logs_app.
Qed.

End FileScan.

(** ** What the walk opens it closes, what it reads it verifies *)

Section Balance.

Context {pg : Postgres}.

Variable weight : event -> Z.

Hypothesis weight_read_page :
  forall b, weight (EvRead BLCKSZ) + weight (EvChecksum b) = 0.
Hypothesis weight_read_other :
  forall n, n <> BLCKSZ -> weight (EvRead n) = 0.
Hypothesis weight_open_close :
  forall c n, weight (EvOpen c n true) + weight EvClose = 0.
Hypothesis weight_open_fail : forall c n, weight (EvOpen c n false) = 0.
Hypothesis weight_lstat : forall c n r, weight (EvLstat c n r) = 0.
Hypothesis weight_chdir : forall c p ok, weight (EvChdir c p ok) = 0.
Hypothesis weight_opendir_close :
  forall c p, weight (EvOpendir c p true) + weight EvClosedir = 0.
Hypothesis weight_opendir_fail : forall c p, weight (EvOpendir c p false) = 0.

Lemma net_of_log (e : event) (w : world) :
  net_of weight (log e w) = weight e + net_of weight w.
Proof. reflexivity. Qed.

Lemma read_pages_net (filename : string) (reads : list read_result) :
  forall (blkno c : Z) (w : world),
  net_of weight (snd (read_pages filename reads blkno c w)) = net_of weight w.
Proof.
  induction reads as [|[bs|] reads IH]; intros blkno c w;
    cbn [read_pages snd].
  - rewrite net_of_log, weight_read_other; [lia | discriminate].
  - destruct (Z.eqb_spec (Z.of_nat (List.length (firstn (Z.to_nat BLCKSZ) bs)))
                BLCKSZ) as [E|N].
    + rewrite IH, !net_of_log, E.
      pose proof (weight_read_page (checksum_blkno filename blkno)). lia.
    + destruct (0 <? _); cbn [snd]; rewrite net_of_log, weight_read_other;
        auto; lia.
  - rewrite net_of_log, weight_read_other; [lia | discriminate].
Qed.

Lemma sys_open_net (filename : string) (w : world) :
  match sys_open filename w with
  | (Some _, w1) => net_of weight w1 + weight EvClose = net_of weight w
  | (None, w1) => net_of weight w1 = net_of weight w
  end.
Proof.
  unfold sys_open.
  destruct (namei w filename) as [[q [f|[|] s l c|]]|];
    try destruct (f_openable f); rewrite net_of_log;
    try (rewrite weight_open_fail; lia);
    pose proof (weight_open_close (w_cwd w) filename); lia.
Qed.

Lemma scan_segmentfile_net (filename dirpath : string) (w : world) :
  net_of weight (snd (scan_segmentfile filename dirpath w)) = net_of weight w.
Proof.
  unfold scan_segmentfile.
  destruct (strstr filename "pg_internal.init"); [reflexivity|].
  pose proof (sys_open_net filename w) as Ho.
  destruct (sys_open filename w) as [[reads|] w1]; [|exact Ho].
  pose proof (read_pages_net filename reads 0 0 w1) as Hr.
  destruct (read_pages filename reads 0 0 w1) as [n w2].
  cbn [snd] in *. rewrite net_of_log. lia.
Qed.

Lemma sys_lstat_net (name : string) (statbuf : st_mode) (w : world) :
  net_of weight (snd (sys_lstat name statbuf w)) = net_of weight w.
Proof.
  unfold sys_lstat. destruct (namei w name) as [[q x]|]; cbn [snd];
    rewrite net_of_log, weight_lstat; lia.
Qed.

Lemma scan_entries_net (scan : string -> world -> option (Z * world))
    (dirpath : string) :
  (forall p w n w', scan p w = Some (n, w') -> net_of weight w' = net_of weight w) ->
  forall (entries : list string) (statbuf : st_mode) (found : Z) (w : world)
         (n : Z) (w' : world),
  scan_entries scan dirpath entries statbuf found w = Some (n, w') ->
  net_of weight w' = weight EvClosedir + net_of weight w.
Proof.
  intros Hscan. induction entries as [|d_name rest IH];
    intros statbuf found w n w' Hrun; cbn [scan_entries] in Hrun.
  - inversion Hrun; subst. apply net_of_log.
  - pose proof (sys_lstat_net d_name statbuf w) as Hl.
    destruct (sys_lstat d_name statbuf w) as [statbuf1 w1]. cbn [snd] in Hl.
    destruct statbuf1.
    + destruct (String.eqb "." d_name || String.eqb ".." d_name).
      * rewrite <- Hl. eapply IH; eauto.
      * destruct (scan (snprintf_path MAX_DIR_LENGTH dirpath d_name) w1)
          as [[m w2]|] eqn:Hsub; [|discriminate].
        rewrite <- Hl, <- (Hscan _ _ _ _ Hsub). eapply IH; eauto.
    + pose proof (scan_segmentfile_net d_name dirpath w1) as Hs.
      destruct (scan_segmentfile d_name dirpath w1) as [m w2]. cbn [snd] in Hs.
      rewrite <- Hl, <- Hs. eapply IH; eauto.
    + rewrite <- Hl. eapply IH; eauto.
Qed.

Lemma scan_directory_net (fuel : nat) :
  forall (dirpath : string) (w : world) (n : Z) (w' : world),
  scan_directory fuel dirpath w = Some (n, w') -> net_of weight w' = net_of weight w.
Proof.
  induction fuel as [|fuel IH]; intros dirpath w n w' Hrun;
    cbn [scan_directory] in Hrun; [discriminate|].
  destruct (sys_opendir_inv dirpath w) as [(q & s & l & c & Hn & Ho)|Ho];
    rewrite Ho in Hrun.
  - apply (scan_entries_net _ _ IH) in Hrun. rewrite Hrun.
    rewrite (sys_chdir_after_opendir _ _ _ _ _ _ _ Hn).
    assert (E : net_of weight
                  (enter q s
                     (logs [EvOpendir (w_cwd w) dirpath true;
                            EvChdir (w_cwd w) dirpath s] w))
                = weight (EvChdir (w_cwd w) dirpath s)
                  + (weight (EvOpendir (w_cwd w) dirpath true)
                     + net_of weight w))
      by now destruct s.
    rewrite E.
    pose proof (weight_opendir_close (w_cwd w) dirpath).
    rewrite weight_chdir. lia.
  - inversion Hrun; subst. rewrite net_of_log, weight_opendir_fail. lia.
Qed.

End Balance.

(** ** The operations on a file follow the read loop *)

Lemma file_protocol_app (a b : list event) (st : file_state) :
  file_protocol (a ++ b) st =
  match file_protocol b st with
  | Some st1 => file_protocol a st1
  | None => None
  end.
Proof.
  induction a as [|x a IH].
  - change (file_protocol b st =
            match file_protocol b st with
            | Some st1 => Some st1
            | None => None
            end).
    now destruct (file_protocol b st).
  - change (match file_protocol (a ++ b) st with
            | Some st1 => file_step st1 x
            | None => None
            end =
            match file_protocol b st with
            | Some st1 =>
                match file_protocol a st1 with
                | Some st2 => file_step st2 x
                | None => None
                end
            | None => None
            end).
    rewrite IH. now destruct (file_protocol b st).
Qed.

Lemma file_protocol_cons (e : event) (evs : list event) (st : file_state) :
  file_protocol (e :: evs) st =
  match file_protocol evs st with
  | Some st1 => file_step st1 e
  | None => None
  end.
Proof. reflexivity. Qed.

Lemma performs_refl (st : file_state) (w : world) : performs st w w st.
Proof. now exists []. Qed.

Lemma performs_trans (st1 st2 st3 : file_state) (w1 w2 w3 : world) :
  performs st1 w1 w2 st2 -> performs st2 w2 w3 st3 -> performs st1 w1 w3 st3.
Proof.
  intros (a & Ta & Pa) (b & Tb & Pb). exists (b ++ a). split.
  - now rewrite Tb, Ta, app_assoc.
  - now rewrite file_protocol_app, Pa.
Qed.

Lemma performs_log (st st' : file_state) (e : event) (w : world) :
  file_step st e = Some st' -> performs st w (log e w) st'.
Proof. intros H. exists [e]. split; [reflexivity | exact H]. Qed.

(** A checksum in a trace that follows the protocol comes right after a read
    of [BLCKSZ] bytes. *)
Lemma file_protocol_checksum (later : list event) (b : Z)
    (earlier : list event) (st' : file_state) :
  file_protocol (later ++ EvChecksum b :: earlier) NoFile = Some st' ->
  exists earlier', earlier = EvRead BLCKSZ :: earlier'.
Proof.
  rewrite file_protocol_app, file_protocol_cons.
  destruct (file_protocol earlier NoFile) as [s1|] eqn:H1; [|discriminate].
  destruct s1 as [|name k|name k|]; try discriminate.
  intros _. destruct earlier as [|e earlier']; [discriminate|].
  rewrite file_protocol_cons in H1.
  destruct (file_protocol earlier' NoFile) as [s0|]; [|discriminate].
  destruct s0 as [|name0 k0|name0 k0|];
    destruct e as [? ? ?|? ? ?|? ? ?|? ? [|]|n|b0| |]; try discriminate.
  - cbn [file_step] in H1.
    destruct (Z.eqb_spec n BLCKSZ) as [->|]; [|discriminate].
    now exists earlier'.
  - cbn [file_step] in H1. destruct (b0 =? _); discriminate.
Qed.

(** A read in a trace that follows the protocol to its end is followed at
    once by a checksum when it returned [BLCKSZ] bytes, and by the close of
    the file otherwise. *)
Lemma file_protocol_read (later : list event) (n : Z) (earlier : list event) :
  file_protocol (later ++ EvRead n :: earlier) NoFile = Some NoFile ->
  if n =? BLCKSZ
  then exists later' b, later = later' ++ [EvChecksum b]
  else exists later', later = later' ++ [EvClose].
Proof.
  rewrite file_protocol_app, file_protocol_cons.
  destruct (file_protocol earlier NoFile) as [s1|]; [|discriminate].
  destruct s1 as [|name k|name k|]; try discriminate.
  cbn [file_step].
  induction later as [|x later' _] using rev_ind.
  - destruct (n =? BLCKSZ); discriminate.
  - destruct (n =? BLCKSZ); rewrite file_protocol_app;
      cbn [file_protocol fold_right].
    + destruct x as [? ? ?|? ? ?|? ? ?|? ? ?|?|b| |]; try discriminate.
      intros _. now exists later', b.
    + destruct x as [? ? ?|? ? ?|? ? ?|? ? ?|?|?| |]; try discriminate.
      intros _. now exists later'.
Qed.

Section Protocol.

Context {pg : Postgres}.

Lemma read_pages_performs (filename : string) (reads : list read_result) :
  forall (blkno c : Z) (w : world),
  performs (NextRead filename blkno) w
    (snd (read_pages filename reads blkno c w)) NextClose.
Proof.
  induction reads as [|[bs|] reads IH]; intros blkno c w;
    cbn [read_pages snd]; try (now apply performs_log).
  destruct (Z.eqb_spec (Z.of_nat (List.length (firstn (Z.to_nat BLCKSZ) bs)))
              BLCKSZ) as [E|N].
  - eapply performs_trans; [|apply IH].
    eapply performs_trans; apply performs_log.
    + cbn [file_step]. rewrite E, Z.eqb_refl. reflexivity.
    + cbn [file_step]. now rewrite Z.eqb_refl.
  - assert (Hstep : file_step (NextRead filename blkno)
                      (EvRead (Z.of_nat
                         (List.length (firstn (Z.to_nat BLCKSZ) bs))))
                    = Some NextClose).
    { cbn [file_step]. apply Z.eqb_neq in N. now rewrite N. }
    destruct (0 <? _); cbn [snd]; now apply performs_log.
Qed.

Lemma sys_open_performs (filename : string) (w : world) :
  match sys_open filename w with
  | (Some _, w1) => performs NoFile w w1 (NextRead filename 0)
  | (None, w1) => performs NoFile w w1 NoFile
  end.
Proof.
  unfold sys_open.
  destruct (namei w filename) as [[q [f|[|] s l c|]]|];
    try destruct (f_openable f); now apply performs_log.
Qed.

Lemma scan_segmentfile_performs (filename dirpath : string) (w : world) :
  performs NoFile w (snd (scan_segmentfile filename dirpath w)) NoFile.
Proof.
  unfold scan_segmentfile.
  destruct (strstr filename "pg_internal.init"); [apply performs_refl|].
  pose proof (sys_open_performs filename w) as Ho.
  destruct (sys_open filename w) as [[reads|] w1]; [|exact Ho].
  pose proof (read_pages_performs filename reads 0 0 w1) as Hr.
  destruct (read_pages filename reads 0 0 w1) as [n w2]. cbn [snd] in *.
  eapply performs_trans; [exact Ho|].
  eapply performs_trans; [exact Hr|]. now apply performs_log.
Qed.

Lemma sys_lstat_performs (name : string) (statbuf : st_mode) (w : world) :
  performs NoFile w (snd (sys_lstat name statbuf w)) NoFile.
Proof.
  unfold sys_lstat.
  destruct (namei w name) as [[q x]|]; now apply performs_log.
Qed.

Lemma scan_entries_performs (scan : string -> world -> option (Z * world))
    (dirpath : string) :
  (forall p w n w', scan p w = Some (n, w') -> performs NoFile w w' NoFile) ->
  forall (entries : list string) (statbuf : st_mode) (found : Z) (w : world)
         (n : Z) (w' : world),
  scan_entries scan dirpath entries statbuf found w = Some (n, w') ->
  performs NoFile w w' NoFile.
Proof.
  intros Hscan. induction entries as [|d_name rest IH];
    intros statbuf found w n w' Hrun; cbn [scan_entries] in Hrun.
  - inversion Hrun; subst. now apply performs_log.
  - pose proof (sys_lstat_performs d_name statbuf w) as Hl.
    destruct (sys_lstat d_name statbuf w) as [statbuf1 w1]. cbn [snd] in Hl.
    eapply performs_trans; [exact Hl|].
    destruct statbuf1.
    + destruct (String.eqb "." d_name || String.eqb ".." d_name).
      * eapply IH; eauto.
      * destruct (scan (snprintf_path MAX_DIR_LENGTH dirpath d_name) w1)
          as [[m w2]|] eqn:Hsub; [|discriminate].
        eapply performs_trans; [exact (Hscan _ _ _ _ Hsub)|].
        eapply IH; eauto.
    + pose proof (scan_segmentfile_performs d_name dirpath w1) as Hs.
      destruct (scan_segmentfile d_name dirpath w1) as [m w2]. cbn [snd] in Hs.
      eapply performs_trans; [exact Hs|]. eapply IH; eauto.
    + eapply IH; eauto.
Qed.

Lemma scan_directory_performs (fuel : nat) :
  forall (dirpath : string) (w : world) (n : Z) (w' : world),
  scan_directory fuel dirpath w = Some (n, w') -> performs NoFile w w' NoFile.
Proof.
  induction fuel as [|fuel IH]; intros dirpath w n w' Hrun;
    cbn [scan_directory] in Hrun; [discriminate|].
  destruct (sys_opendir_inv dirpath w) as [(q & s & l & c & Hn & Ho)|Ho];
    rewrite Ho in Hrun.
  - apply (scan_entries_performs _ _ IH) in Hrun.
    rewrite (sys_chdir_after_opendir _ _ _ _ _ _ _ Hn) in Hrun.
    eapply performs_trans; [|exact Hrun].
    exists [EvChdir (w_cwd w) dirpath s; EvOpendir (w_cwd w) dirpath true].
    split; [now destruct s | reflexivity].
  - inversion Hrun; subst. now apply performs_log.
Qed.

End Protocol.

Section WalkBalance.

Context {pg : Postgres}.

(** X6: a walk that returns has closed every file and every directory
    stream it opened: over the operations of the walk the opens that succeeded
    and the closes cancel out, for files and for directories. *)
Theorem scan_directory_closes_what_it_opens (fuel : nat) (dirpath : string)
    (w : world) (n : Z) (w' : world) :
  scan_directory fuel dirpath w = Some (n, w') ->
  net fd_weight (w_trace w') = net fd_weight (w_trace w) /\
  net dir_weight (w_trace w') = net dir_weight (w_trace w).
Proof.
  intros Hrun. split.
  - eapply (scan_directory_net fd_weight); [..|exact Hrun]; reflexivity.
  - eapply (scan_directory_net dir_weight); [..|exact Hrun]; reflexivity.
Qed.

(** X7: the operations of a walk that returns, [evs] with the latest first,
    follow the read loop from the first to the last: a file that opens is
    read; a read that returned [BLCKSZ] bytes is followed at once by the
    computation of one checksum, at the block number of the page's index in
    the file opened last, and then by the next read; a read that is short,
    empty or fails is followed at once by the close of the file.  So every
    checksum comes right after a read of [BLCKSZ] bytes, every such read is
    verified next, and no checksum follows a short, empty or failed read. *)
Theorem scan_directory_verifies_what_it_reads (fuel : nat) (dirpath : string)
    (w : world) (n : Z) (w' : world) :
  scan_directory fuel dirpath w = Some (n, w') ->
  exists evs : list event,
    w_trace w' = evs ++ w_trace w /\
    file_protocol evs NoFile = Some NoFile /\
    (forall later b earlier,
       evs = later ++ EvChecksum b :: earlier ->
       exists earlier', earlier = EvRead BLCKSZ :: earlier') /\
    (forall later m earlier,
       evs = later ++ EvRead m :: earlier ->
       if m =? BLCKSZ
       then exists later' b, later = later' ++ [EvChecksum b]
       else exists later', later = later' ++ [EvClose]).
Proof.
  intros Hrun.
  destruct (scan_directory_performs _ _ _ _ _ Hrun) as (evs & Htrace & Hp).
  exists evs. split; [exact Htrace|]. split; [exact Hp|]. split.
  - intros later b earlier E. rewrite E in Hp.
    now apply file_protocol_checksum in Hp.
  - intros later m earlier E. rewrite E in Hp.
    now apply file_protocol_read in Hp.
Qed.

End WalkBalance.

(** ** Path names *)

Lemma split_path_not_nil (p : string) : split_path p <> [].
Proof.
  induction p as [|c p IH]; cbn [split_path]; [discriminate|].
  destruct (Ascii.eqb c "/"); [discriminate|].
  destruct (split_path p); discriminate.
Qed.

Lemma split_path_app (a b : string) :
  split_path (a ++ "/" ++ b)%string = split_path a ++ split_path b.
Proof.
  induction a as [|c a IH]; [reflexivity|].
  cbn [String.append split_path] in *. rewrite IH.
  destruct (Ascii.eqb c "/"); [reflexivity|].
  pose proof (split_path_not_nil a) as Hne.
  destruct (split_path a) as [|first others]; [now contradiction Hne|].
  reflexivity.
Qed.

Lemma walk_app (root : node) (l1 l2 : list string) :
  forall cur : path,
  walk root cur (l1 ++ l2) =
  match walk root cur l1 with
  | Some p => walk root p l2
  | None => None
  end.
Proof.
  induction l1 as [|c l1 IH]; intros cur; [reflexivity|].
  cbn [app walk].
  destruct (lookup root cur) as [[f|r s l c0|]|]; try reflexivity.
  destruct (String.eqb c ""); [apply IH|].
  destruct s; cbn [negb]; [|reflexivity].
  destruct (String.eqb c "."); [apply IH|].
  destruct (String.eqb c ".."); [apply IH|].
  destruct (lookup root (cur ++ [c])); [apply IH | reflexivity].
Qed.

Lemma lookup_removelast (p : path) :
  forall (x y : node), lookup x p = Some y ->
  exists z, lookup x (removelast p) = Some z.
Proof.
  induction p as [|a p IH]; intros x y H; [now exists x|].
  destruct p as [|b p]; [now exists x|].
  cbn [removelast lookup] in *.
  destruct x as [f|r s l children|]; try discriminate.
  destruct (child a children) as [x'|]; [|discriminate].
  exact (IH _ _ H).
Qed.

(** A path that [walk] accepts, one component at least, names something. *)
Lemma walk_exists (root : node) (comps : list string) :
  forall (cur p : path), comps <> [] ->
  walk root cur comps = Some p ->
  exists x, lookup root p = Some x.
Proof.
  induction comps as [|c comps IH]; intros cur p Hne H; [now contradiction Hne|].
  cbn [walk] in H.
  destruct (lookup root cur) as [[f|r s l children|]|] eqn:Hcur;
    try discriminate.
  assert (Hnext : forall q, (exists x, lookup root q = Some x) ->
                    walk root q comps = Some p ->
                    exists x, lookup root p = Some x).
  { intros q Hq Hw. destruct comps as [|c' comps'].
    - inversion Hw; subst. exact Hq.
    - eapply IH; [discriminate | exact Hw]. }
  destruct (String.eqb c ""); [eapply Hnext; [|exact H]; eauto|].
  destruct s; cbn [negb] in H; [|discriminate].
  destruct (String.eqb c ".").
  - eapply Hnext; [|exact H]. eauto.
  - destruct (String.eqb c "..").
    + eapply Hnext; [|exact H]. eapply lookup_removelast; eauto.
    + destruct (lookup root (cur ++ [c])) as [y|] eqn:Hy; [|discriminate].
      eapply Hnext; [|exact H]. eauto.
Qed.

Lemma is_absolute_app (a b : string) :
  a <> "" -> is_absolute (a ++ b)%string = is_absolute a.
Proof. destruct a; [intros H; now contradiction H | reflexivity]. Qed.

(** Below a path that names nothing, nothing is named. *)
Lemma resolve_eq (root : node) (cwd : path) (p : string) :
  p <> "" ->
  resolve root cwd p =
  match walk root (if is_absolute p then [] else cwd) (split_path p) with
  | Some q =>
      match lookup root q with
      | Some x => Some (q, x)
      | None => None
      end
  | None => None
  end.
Proof. destruct p; [intros H; now contradiction H | reflexivity]. Qed.

Lemma resolve_below_nothing (root : node) (cwd : path) (a b : string) :
  a <> "" ->
  resolve root cwd a = None ->
  resolve root cwd (a ++ "/" ++ b)%string = None.
Proof.
  intros Ha H. rewrite resolve_eq in H by assumption.
  assert (Hw : walk root (if is_absolute a then [] else cwd) (split_path a)
               = None).
  { destruct (walk root (if is_absolute a then [] else cwd) (split_path a))
      as [p|] eqn:Hw; [|reflexivity].
    destruct (walk_exists _ _ _ _ (split_path_not_nil _) Hw) as [x Hx].
    rewrite Hx in H. discriminate. }
  rewrite resolve_eq by (destruct a; [now contradiction Ha | discriminate]).
  rewrite split_path_app, walk_app, is_absolute_app, Hw by assumption.
  reflexivity.
Qed.

Lemma string_of_chars (s : string) : string_of_list_ascii (chars s) = s.
Proof. apply string_of_list_ascii_of_string. Qed.

Lemma chars_app (a b : string) : chars (a ++ b)%string = chars a ++ chars b.
Proof.
  unfold chars. induction a as [|c a IH]; [reflexivity|].
  cbn [String.append list_ascii_of_string app]. now rewrite IH.
Qed.

Lemma strlen_app (a b : string) :
  strlen (a ++ b)%string = (strlen a + strlen b)%nat.
Proof. unfold strlen. now rewrite chars_app, length_app. Qed.

(** [snprintf] stores the whole path when it fits. *)
Lemma snprintf_path_fits (a b : string) :
  (strlen a + 1 + strlen b < MAX_DIR_LENGTH)%nat ->
  snprintf_path MAX_DIR_LENGTH a b = (a ++ "/" ++ b)%string.
Proof.
  intros H. unfold snprintf_path.
  rewrite firstn_all2; [apply string_of_chars|].
  fold (strlen (a ++ "/" ++ b)). rewrite !strlen_app.
  change (strlen "/") with 1%nat. lia.
Qed.

(** ** Directories from which the scan enters no directory *)

Section Flat.

Context {pg : Postgres}.

Lemma read_pages_count_independent (filename : string) (reads : list read_result) :
  forall (blkno c : Z) (w w0 : world),
  fst (read_pages filename reads blkno c w) =
  fst (read_pages filename reads blkno c w0).
Proof.
  induction reads as [|[bs|] reads IH]; intros blkno c w w0;
    cbn [read_pages fst]; try reflexivity.
  destruct (_ =? BLCKSZ); [apply IH|].
  destruct (0 <? _); reflexivity.
Qed.

(** A regular file counts what it counts when scanned on its own. *)
Lemma scan_segmentfile_contribution (filename dirpath : string) (w : world)
    (q : path) (f : file) :
  namei w filename = Some (q, Reg f) ->
  fst (scan_segmentfile filename dirpath w) = file_contribution filename f.
Proof.
  intros Hn. unfold scan_segmentfile, file_contribution, sys_open.
  destruct (strstr filename "pg_internal.init"); [reflexivity|].
  rewrite Hn. destruct (f_openable f); [|reflexivity].
  destruct (read_pages filename (f_reads f) 0 0 _) as [n w2] eqn:E.
  cbn [fst]. change n with (fst (n, w2)). rewrite <- E.
  apply read_pages_count_independent.
Qed.

Lemma wrap32_add_l (a b : Z) : wrap32 (wrap32 a + b) = wrap32 (a + b).
Proof. unfold wrap32. apply Z.add_mod_idemp_l. lia. Qed.

Lemma scan_entries_flat (fuel : nat) (dirpath : string) (root : node)
    (q : path) (entries : list string) :
  flat_listing root q dirpath entries ->
  forall (statbuf : st_mode) (found : Z) (w : world),
  w_root w = root -> w_cwd w = q -> 0 <= found < 2 ^ 32 ->
  exists w',
    scan_entries (scan_directory (S fuel)) dirpath entries statbuf found w =
      Some (wrap32 (found + listing_total root q entries), w') /\
    w_root w' = root /\ w_cwd w' = q.
Proof.
  induction 1 as [|d_name rest Hd Hrest IH];
    intros statbuf found w Hroot Hcwd Hfound;
    cbn [scan_entries listing_total].
  - eexists. rewrite Z.add_0_r, wrap32_small by assumption.
    split; [reflexivity|]. now split.
  - destruct Hd as (q' & x & Hres & Hdir).
    unfold sys_lstat, namei at 1. rewrite Hroot, Hcwd, Hres.
    set (w1 := log (EvLstat q d_name (Some (mode_of x))) w).
    assert (Hroot1 : w_root w1 = root) by exact Hroot.
    assert (Hcwd1 : w_cwd w1 = q) by exact Hcwd.
    destruct x as [f|r s l children|]; cbn [mode_of].
    + pose proof (scan_segmentfile_contribution d_name dirpath w1 q' f) as Hc.
      pose proof (scan_segmentfile_same_place d_name dirpath w1) as Hs.
      destruct (scan_segmentfile d_name dirpath w1) as [n w2].
      cbn [fst snd] in *.
      rewrite Hc by (unfold namei; now rewrite Hroot1, Hcwd1).
      destruct (IH S_IFREG (wrap32 (found + file_contribution d_name f)) w2)
        as (w' & Hrun & Hr & Hq).
      * rewrite <- Hroot1. apply Hs.
      * rewrite <- Hcwd1. apply Hs.
      * apply wrap32_range.
      * exists w'. rewrite Hrun, wrap32_add_l, Z.add_assoc. now repeat split.
    + rewrite Z.add_0_l.
      destruct (String.eqb "." d_name || String.eqb ".." d_name) eqn:Hdot.
      * now apply IH.
      * assert (Hclosed : opens_dir root q
                            (snprintf_path MAX_DIR_LENGTH dirpath d_name) = false).
        { destruct (Hdir eq_refl) as [->|[->|Hc]]; [discriminate..|exact Hc]. }
        assert (Hsub : scan_directory (S fuel)
                         (snprintf_path MAX_DIR_LENGTH dirpath d_name) w1 =
                       Some (0, log (EvOpendir q
                               (snprintf_path MAX_DIR_LENGTH dirpath d_name)
                               false) w1)).
        { cbn [scan_directory]. unfold sys_opendir, namei.
          rewrite Hroot1, Hcwd1. unfold opens_dir in Hclosed.
          destruct (resolve root q (snprintf_path MAX_DIR_LENGTH dirpath d_name))
            as [[q2 [f2|[|] s2 l2 c2|]]|]; try reflexivity. discriminate. }
        rewrite Hsub, Z.add_0_r, (wrap32_small found) by assumption.
        now apply IH.
    + rewrite Z.add_0_l. now apply IH.
Qed.

Lemma scan_directory_flat (fuel : nat) (dirpath : string) (w : world)
    (q : path) (l : list string) (c : list (string * node)) :
  namei w dirpath = Some (q, Dir true true l c) ->
  flat_listing (w_root w) q dirpath l ->
  exists w',
    scan_directory (S (S fuel)) dirpath w =
      Some (wrap32 (listing_total (w_root w) q l), w') /\
    w_root w' = w_root w /\ w_cwd w' = q.
Proof.
  intros Hn Hflat. rewrite (scan_directory_enters _ _ _ _ _ _ Hn).
  destruct (scan_entries_flat fuel dirpath (w_root w) q l Hflat (w_uninit w) 0
              (set_cwd q
                 (logs [EvOpendir (w_cwd w) dirpath true;
                        EvChdir (w_cwd w) dirpath true] w)))
    as (w' & Hrun & Hr & Hq); [reflexivity | reflexivity | lia |].
  exists w'. rewrite Hrun, Z.add_0_l. now repeat split.
Qed.

(** X8: the scan of a directory that the process may read and search and
    that holds no directory beside [.] and [..], such as the directory of a
    database, returns the sum, modulo 2^32, of what its regular files count
    when each is scanned on its own; entries that are neither regular file
    nor directory count nothing.  The process is left in that directory. *)
Theorem scan_directory_sums_regular_files (fuel : nat) (dirpath : string)
    (w : world) (q : path) (l : list string) (c : list (string * node)) :
  namei w dirpath = Some (q, Dir true true l c) ->
  Forall (fun e =>
            exists q' x,
              resolve (w_root w) q e = Some (q', x) /\
              (mode_of x = S_IFDIR -> e = "." \/ e = "..")) l ->
  exists w',
    scan_directory (S (S fuel)) dirpath w =
      Some (wrap32 (listing_total (w_root w) q l), w') /\
    w_cwd w' = q.
Proof.
  intros Hn Hl.
  destruct (scan_directory_flat fuel dirpath w q l c Hn) as (w' & Hrun & _ & Hq).
  - eapply Forall_impl; [|exact Hl].
    intros e (q' & x & Hres & Hdir). exists q', x. split; [exact Hres|].
    intros Hx. destruct (Hdir Hx); auto.
  - now exists w'.
Qed.

(** X9: when the path the scan is given names a directory the process may
    read and search, and names nothing from inside that directory, as a
    relative path does, no directory listed there is entered: whatever the
    subdirectories hold, the scan returns the sum, modulo 2^32, of what the
    regular files of the directory itself count. *)
Theorem scan_directory_relative_path (fuel : nat) (dirpath : string)
    (w : world) (q : path) (l : list string) (c : list (string * node)) :
  namei w dirpath = Some (q, Dir true true l c) ->
  resolve (w_root w) q dirpath = None ->
  Forall (fun e =>
            (exists q' x, resolve (w_root w) q e = Some (q', x)) /\
            (strlen dirpath + 1 + strlen e < MAX_DIR_LENGTH)%nat) l ->
  exists w',
    scan_directory (S (S fuel)) dirpath w =
      Some (wrap32 (listing_total (w_root w) q l), w') /\
    w_cwd w' = q.
Proof.
  intros Hn Hnone Hl.
  assert (Hne : dirpath <> "").
  { intros ->. unfold namei, resolve in Hn. discriminate. }
  destruct (scan_directory_flat fuel dirpath w q l c Hn) as (w' & Hrun & _ & Hq).
  - eapply Forall_impl; [|exact Hl].
    intros e ((q' & x & Hres) & Hlen). exists q', x. split; [exact Hres|].
    intros _. right; right. unfold opens_dir.
    rewrite snprintf_path_fits by assumption.
    now rewrite resolve_below_nothing.
  - now exists w'.
Qed.

End Flat.

(** ** Scanning again *)

Lemma agree_log (e1 e2 : event) (w1 w2 : world) :
  agree w1 w2 -> agree (log e1 w1) (log e2 w2).
Proof. intros H. exact H. Qed.

Lemma agree_namei (w1 w2 : world) (p : string) :
  agree w1 w2 -> namei w1 p = namei w2 p.
Proof. intros (R & C & _). unfold namei. now rewrite R, C. Qed.

Lemma resolve_absolute (root : node) (c1 c2 : path) (p : string) :
  is_absolute p = true -> resolve root c1 p = resolve root c2 p.
Proof. intros H. unfold resolve. now rewrite H. Qed.

Section Again.

Context {pg : Postgres}.

Lemma read_pages_agree (filename : string) (reads : list read_result) :
  forall (blkno c : Z) (w1 w2 : world),
  agree w1 w2 ->
  fst (read_pages filename reads blkno c w1) =
    fst (read_pages filename reads blkno c w2) /\
  agree (snd (read_pages filename reads blkno c w1))
        (snd (read_pages filename reads blkno c w2)).
Proof.
  induction reads as [|[bs|] reads IH]; intros blkno c w1 w2 H;
    cbn [read_pages fst snd]; try (split; [reflexivity | exact H]).
  destruct (_ =? BLCKSZ); [apply IH; exact H|].
  destruct (0 <? _); split; try reflexivity; exact H.
Qed.

Lemma scan_segmentfile_agree (filename dirpath : string) (w1 w2 : world) :
  agree w1 w2 ->
  fst (scan_segmentfile filename dirpath w1) =
    fst (scan_segmentfile filename dirpath w2) /\
  agree (snd (scan_segmentfile filename dirpath w1))
        (snd (scan_segmentfile filename dirpath w2)).
Proof.
  intros H. unfold scan_segmentfile, sys_open.
  destruct (strstr filename "pg_internal.init"); [now split|].
  rewrite (agree_namei w1 w2 filename H).
  destruct (namei w2 filename) as [[q [f|[|] s l c|]]|];
    try (split; [reflexivity | exact H]).
  - destruct (f_openable f); [|split; [reflexivity | exact H]].
    pose proof (read_pages_agree filename (f_reads f) 0 0
                  (log (EvOpen (w_cwd w1) filename true) w1)
                  (log (EvOpen (w_cwd w2) filename true) w2) H) as [Hn Ha].
    destruct (read_pages filename (f_reads f) 0 0
                (log (EvOpen (w_cwd w1) filename true) w1)) as [n1 a1].
    destruct (read_pages filename (f_reads f) 0 0
                (log (EvOpen (w_cwd w2) filename true) w2)) as [n2 a2].
    cbn [fst snd] in *. split; [exact Hn | exact Ha].
Qed.

Lemma sys_lstat_agree (name : string) (statbuf : st_mode) (w1 w2 : world) :
  agree w1 w2 ->
  fst (sys_lstat name statbuf w1) = fst (sys_lstat name statbuf w2) /\
  agree (snd (sys_lstat name statbuf w1)) (snd (sys_lstat name statbuf w2)).
Proof.
  intros H. unfold sys_lstat. rewrite (agree_namei w1 w2 name H).
  destruct (namei w2 name) as [[q x]|]; split; try reflexivity; exact H.
Qed.

Lemma scan_entries_agree (scan1 scan2 : string -> world -> option (Z * world))
    (dirpath : string) :
  (forall p w1 w2, agree w1 w2 -> same_result (scan1 p w1) (scan2 p w2)) ->
  forall (entries : list string) (statbuf : st_mode) (found : Z)
         (w1 w2 : world),
  agree w1 w2 ->
  same_result (scan_entries scan1 dirpath entries statbuf found w1)
              (scan_entries scan2 dirpath entries statbuf found w2).
Proof.
  intros Hscan. induction entries as [|d_name rest IH];
    intros statbuf found w1 w2 H; cbn [scan_entries].
  - split; [reflexivity | exact H].
  - destruct (sys_lstat_agree d_name statbuf w1 w2 H) as [Hm Ha].
    destruct (sys_lstat d_name statbuf w1) as [m1 a1].
    destruct (sys_lstat d_name statbuf w2) as [m2 a2].
    cbn [fst snd] in *. subst m2.
    destruct m1.
    + destruct (String.eqb "." d_name || String.eqb ".." d_name);
        [now apply IH|].
      specialize (Hscan (snprintf_path MAX_DIR_LENGTH dirpath d_name) a1 a2 Ha).
      destruct (scan1 (snprintf_path MAX_DIR_LENGTH dirpath d_name) a1)
        as [[n1 b1]|];
        destruct (scan2 (snprintf_path MAX_DIR_LENGTH dirpath d_name) a2)
          as [[n2 b2]|]; cbn [same_result] in Hscan; try contradiction;
        [|exact I].
      destruct Hscan as [-> Hb]. now apply IH.
    + destruct (scan_segmentfile_agree d_name dirpath a1 a2 Ha) as [Hn Hb].
      destruct (scan_segmentfile d_name dirpath a1) as [n1 b1].
      destruct (scan_segmentfile d_name dirpath a2) as [n2 b2].
      cbn [fst snd] in *. subst n2. now apply IH.
    + now apply IH.
Qed.

Lemma scan_directory_agree (fuel : nat) :
  forall (dirpath : string) (w1 w2 : world),
  agree w1 w2 ->
  same_result (scan_directory fuel dirpath w1) (scan_directory fuel dirpath w2).
Proof.
  induction fuel as [|fuel IH]; intros dirpath w1 w2 H; [exact I|].
  cbn [scan_directory]. unfold sys_opendir, sys_chdir.
  change (namei (log ?e w1) dirpath) with (namei w1 dirpath).
  rewrite (agree_namei w1 w2 dirpath H).
  destruct H as (R & C & U).
  destruct (namei w2 dirpath) as [[q [f|[|] s l c|]]|] eqn:Hn;
    try (split; [reflexivity | now repeat split]).
  cbn [fst snd]. unfold namei. cbn [log w_root w_cwd].
  fold (namei w1 dirpath). fold (namei w2 dirpath).
  rewrite (agree_namei w1 w2 dirpath) by now repeat split.
  rewrite Hn. cbn [w_uninit log]. rewrite U.
  apply scan_entries_agree; [exact IH|].
  destruct s; now repeat split.
Qed.

(** X10: for an absolute path that names a directory the process may
    search, or one it cannot open, the count does not depend on the directory
    the process is in when the scan starts, nor on what it did before.  A
    scan that returns leaves the tree as it was; so the scan run again from
    where the first one left the process, with a [struct stat] that holds
    before the first [lstat] what it held in the first run, returns the same
    count. *)
Theorem scan_directory_again (fuel : nat) (dirpath : string) (root : node) :
  is_absolute dirpath = true ->
  (forall q s l c,
     resolve root [] dirpath = Some (q, Dir true s l c) -> s = true) ->
  (forall w1 w2 : world,
     w_root w1 = root -> w_root w2 = root -> w_uninit w1 = w_uninit w2 ->
     option_map fst (scan_directory fuel dirpath w1) =
     option_map fst (scan_directory fuel dirpath w2)) /\
  (forall (w : world) (n : Z) (w' : world),
     w_root w = root ->
     scan_directory fuel dirpath w = Some (n, w') ->
     w_root w' = root /\
     forall w2 : world,
       w_root w2 = w_root w' -> w_cwd w2 = w_cwd w' ->
       w_uninit w2 = w_uninit w ->
       exists w'', scan_directory fuel dirpath w2 = Some (n, w'')).
Proof.
  intros Habs Hsearch.
  assert (Hindep : forall w1 w2 : world,
            w_root w1 = root -> w_root w2 = root ->
            w_uninit w1 = w_uninit w2 ->
            option_map fst (scan_directory fuel dirpath w1) =
            option_map fst (scan_directory fuel dirpath w2)).
  { intros w1 w2 R1 R2 U. destruct fuel as [|fuel]; [reflexivity|].
    assert (E : namei w1 dirpath = namei w2 dirpath).
    { unfold namei. rewrite R1, R2. now apply resolve_absolute. }
    destruct (sys_opendir_inv dirpath w2) as [(q & s & l & c & Hn & Ho)|Ho].
    - assert (Hs : s = true).
      { apply (Hsearch q s l c). unfold namei in Hn. rewrite R2 in Hn.
        rewrite <- Hn. now apply resolve_absolute. }
      subst s.
      assert (Hn1 : namei w1 dirpath = Some (q, Dir true true l c))
        by now rewrite E.
      rewrite (scan_directory_enters fuel dirpath w1 q l c Hn1).
      rewrite (scan_directory_enters fuel dirpath w2 q l c Hn).
      rewrite U.
      set (a1 := set_cwd q (logs [EvOpendir (w_cwd w1) dirpath true;
                                  EvChdir (w_cwd w1) dirpath true] w1)).
      set (a2 := set_cwd q (logs [EvOpendir (w_cwd w2) dirpath true;
                                  EvChdir (w_cwd w2) dirpath true] w2)).
      assert (Ha : agree a1 a2)
        by (unfold agree; subst a1 a2; cbn; repeat split; congruence).
      pose proof (scan_entries_agree (scan_directory fuel) (scan_directory fuel)
                    dirpath (scan_directory_agree fuel) l (w_uninit w2) 0
                    a1 a2 Ha) as Hs.
      destruct (scan_entries (scan_directory fuel) dirpath l (w_uninit w2) 0 a1)
        as [[n1 b1]|];
        destruct (scan_entries (scan_directory fuel) dirpath l (w_uninit w2) 0
                    a2) as [[n2 b2]|];
        cbn [same_result option_map fst] in *; try contradiction;
        [|reflexivity].
      destruct Hs as [-> _]. reflexivity.
    - cbn [scan_directory]. rewrite Ho.
      assert (Ho1 : sys_opendir dirpath w1 =
                    (None, log (EvOpendir (w_cwd w1) dirpath false) w1)).
      { unfold sys_opendir in *. rewrite E.
        destruct (namei w2 dirpath) as [[q [f|[|] s l c|]]|];
          try reflexivity. discriminate. }
      now rewrite Ho1. }
  split; [exact Hindep|].
  intros w n w' R Hrun.
  destruct (scan_directory_keeps_tree _ _ _ _ _ Hrun) as [R' _].
  split; [congruence|].
  intros w2 R2 _ U2.
  assert (Hsame : option_map fst (scan_directory fuel dirpath w2) =
                  option_map fst (scan_directory fuel dirpath w))
    by (apply Hindep; congruence).
  rewrite Hrun in Hsame.
  destruct (scan_directory fuel dirpath w2) as [[n' w'']|]; [|discriminate].
  cbn [option_map fst] in Hsame. inversion Hsame; subst. now exists w''.
Qed.

End Again.

(** ** main *)

Lemma append_slash_base (a : string) :
  ((a ++ "/") ++ "base")%string = (a ++ "/base")%string.
Proof. induction a as [|c a IH]; [reflexivity|]. cbn [String.append]. now rewrite IH. Qed.

Lemma chars_snoc (a : string) (c : ascii) :
  chars (a ++ String c "")%string = chars a ++ [c].
Proof. now rewrite chars_app. Qed.

Lemma set_datadir_snoc (a : string) (c : ascii) :
  set_datadir (a ++ String c "")%string =
  let datadir :=
    if Ascii.eqb c "/"
    then ((a ++ String c "") ++ "base")%string
    else ((a ++ String c "") ++ "/base")%string in
  if (strlen datadir <? MAX_DIR_LENGTH)%nat then Some datadir else None.
Proof.
  assert (Hlen : strlen (a ++ String c "")%string = S (strlen a)).
  { rewrite strlen_app. change (strlen (String c "")) with 1%nat. lia. }
  unfold set_datadir. rewrite Hlen, chars_snoc.
  replace (nth (strlen a) (chars a ++ [c]) zero) with c
    by (unfold strlen; now rewrite nth_middle).
  reflexivity.
Qed.

(** X11: [-D dir/] and [-D dir] name the same data directory: when [dir]
    ends in a character other than a slash, the path built from [dir/] is the
    one built from [dir], and [main] ends the same way. *)
Theorem trailing_slash_is_ignored {pg : Postgres} (dir0 : string) (c : ascii)
    (argc : Z) (before after : list getopt_result) (datadir0 : string)
    (fuel : nat) (w : world) :
  c <> "/"%char ->
  set_datadir ((dir0 ++ String c "") ++ "/")%string =
    set_datadir (dir0 ++ String c "")%string /\
  main argc
    (before ++ mkopt "D" (Some ((dir0 ++ String c "") ++ "/")%string) :: after)
    datadir0 fuel w =
  main argc
    (before ++ mkopt "D" (Some (dir0 ++ String c "")%string) :: after)
    datadir0 fuel w.
Proof.
  intros Hc.
  assert (E : set_datadir ((dir0 ++ String c "") ++ "/")%string =
              set_datadir (dir0 ++ String c "")%string).
  { rewrite (set_datadir_snoc (dir0 ++ String c "") "/"), set_datadir_snoc.
    apply Ascii.eqb_neq in Hc. rewrite Hc, Ascii.eqb_refl.
    cbv zeta. now rewrite append_slash_base. }
  split; [exact E|].
  unfold main. destruct (argc =? 1); [reflexivity|].
  replace (parse_options
             (before ++ mkopt "D" (Some ((dir0 ++ String c "") ++ "/")%string)
                :: after) datadir0)
    with (parse_options
            (before ++ mkopt "D" (Some (dir0 ++ String c "")%string) :: after)
            datadir0); [reflexivity|].
  revert datadir0. induction before as [|o before IH]; intros datadir0.
  - cbn [app parse_options opt_c opt_arg]. now rewrite E.
  - cbn [app parse_options].
    destruct (Ascii.eqb (opt_c o) zero); [apply IH|].
    destruct (Ascii.eqb (opt_c o) "c"); [apply IH|].
    destruct (Ascii.eqb (opt_c o) "v"); [apply IH|].
    destruct (Ascii.eqb (opt_c o) "D"); [|reflexivity].
    destruct (opt_arg o) as [optarg|]; [|reflexivity].
    destruct (set_datadir optarg); [apply IH | reflexivity].
Qed.

Section Status.

Context {pg : Postgres}.

Lemma scan_entries_count_range (scan : string -> world -> option (Z * world))
    (dirpath : string) :
  forall (entries : list string) (statbuf : st_mode) (found : Z) (w : world)
         (n : Z) (w' : world),
  0 <= found < 2 ^ 32 ->
  scan_entries scan dirpath entries statbuf found w = Some (n, w') ->
  0 <= n < 2 ^ 32.
Proof.
  induction entries as [|d_name rest IH];
    intros statbuf found w n w' Hfound Hrun; cbn [scan_entries] in Hrun.
  - inversion Hrun; subst. exact Hfound.
  - destruct (sys_lstat d_name statbuf w) as [statbuf1 w1].
    destruct statbuf1.
    + destruct (String.eqb "." d_name || String.eqb ".." d_name);
        [eapply IH; eauto|].
      destruct (scan (snprintf_path MAX_DIR_LENGTH dirpath d_name) w1)
        as [[m w2]|]; [|discriminate].
      eapply IH; [|exact Hrun]. apply wrap32_range.
    + destruct (scan_segmentfile d_name dirpath w1) as [m w2].
      eapply IH; [|exact Hrun]. apply wrap32_range.
    + eapply IH; eauto.
Qed.

(** The count of a walk is a [uint32]. *)
Lemma scan_directory_count_range (fuel : nat) (dirpath : string) (w : world)
    (n : Z) (w' : world) :
  scan_directory fuel dirpath w = Some (n, w') -> 0 <= n < 2 ^ 32.
Proof.
  destruct fuel as [|fuel]; cbn [scan_directory]; [discriminate|].
  destruct (sys_opendir dirpath w) as [[entries|] w1]; intros Hrun.
  - eapply scan_entries_count_range; [|exact Hrun]. lia.
  - inversion Hrun; subst. lia.
Qed.

Lemma parse_options_exits (opts : list getopt_result) :
  forall (datadir : string) (s : Z),
  parse_options opts datadir = Exits s -> s = 1.
Proof.
  induction opts as [|o opts IH]; intros d s; cbn [parse_options];
    [discriminate|].
  destruct (Ascii.eqb (opt_c o) zero); [apply IH|].
  destruct (Ascii.eqb (opt_c o) "c"); [apply IH|].
  destruct (Ascii.eqb (opt_c o) "v"); [apply IH|].
  destruct (Ascii.eqb (opt_c o) "D"); [|intros H; now inversion H].
  destruct (opt_arg o) as [optarg|]; [|intros H; now inversion H].
  destruct (set_datadir optarg); [apply IH | discriminate].
Qed.

(** X12: the exit status tells whether anything was counted.  Without
    arguments, and when the option loop calls [exit], [main] ends with status
    1 before it looks at anything.  When [lstat] leaves something else than a
    directory in [statbuf], [main] ends with status 1 after the [lstat].
    When the walk over the data directory returns the count [n], which is a
    [uint32], [main] ends in the state the walk left, with status 0 if [n] is
    0 and with status 1 otherwise.  And on a data directory that can be
    opened and from which the walk enters no directory, the walk returns
    whatever the fuel, so that [main] ends in this last way. *)
Theorem main_exit_status (argc : Z) (opts : list getopt_result)
    (datadir0 : string) (fuel : nat) (w : world) :
  (argc = 1 -> main argc opts datadir0 fuel w = Exit 1 w) /\
  (argc <> 1 ->
   (forall status : Z,
      parse_options opts datadir0 = Exits status ->
      main argc opts datadir0 fuel w = Exit 1 w) /\
   (forall datadir : string,
      parse_options opts datadir0 = Parsed datadir ->
      (fst (sys_lstat datadir (w_uninit w) w) <> S_IFDIR ->
       main argc opts datadir0 fuel w =
       Exit 1 (snd (sys_lstat datadir (w_uninit w) w))) /\
      (fst (sys_lstat datadir (w_uninit w) w) = S_IFDIR ->
       forall (n : Z) (w' : world),
       scan_directory fuel datadir (snd (sys_lstat datadir (w_uninit w) w)) =
         Some (n, w') ->
       0 <= n < 2 ^ 32 /\
       main argc opts datadir0 fuel w = Exit (if n =? 0 then 0 else 1) w') /\
      (forall (q : path) (s : bool) (l : list string)
              (c : list (string * node)),
       namei w datadir = Some (q, Dir true s l c) ->
       leaf_listing (w_root w) (if s then q else w_cwd w) l ->
       exists (n : Z) (w' : world),
         scan_directory (S fuel) datadir
           (snd (sys_lstat datadir (w_uninit w) w)) = Some (n, w') /\
         main argc opts datadir0 (S fuel) w =
         Exit (if n =? 0 then 0 else 1) w'))).
Proof.
  assert (Hwalk : forall (k : nat) (datadir : string) (n : Z) (w' : world),
            argc <> 1 ->
            parse_options opts datadir0 = Parsed datadir ->
            fst (sys_lstat datadir (w_uninit w) w) = S_IFDIR ->
            scan_directory k datadir (snd (sys_lstat datadir (w_uninit w) w)) =
              Some (n, w') ->
            0 <= n < 2 ^ 32 /\
            main argc opts datadir0 k w = Exit (if n =? 0 then 0 else 1) w').
  { intros k datadir n w' Hargc Hopts Hdir Hrun.
    pose proof (scan_directory_count_range _ _ _ _ _ Hrun) as Hn.
    split; [exact Hn|]. unfold main.
    destruct (Z.eqb_spec argc 1) as [E|_]; [contradiction|].
    rewrite Hopts.
    destruct (sys_lstat datadir (w_uninit w) w) as [statbuf w1].
    cbn [fst snd] in *. subst statbuf. rewrite Hrun.
    destruct (Z.ltb_spec 0 n), (Z.eqb_spec n 0); try reflexivity; lia. }
  split.
  - intros ->. reflexivity.
  - intros Hargc. split.
    + intros status Hopts. unfold main.
      destruct (Z.eqb_spec argc 1) as [E|_]; [contradiction|].
      rewrite Hopts. now rewrite (parse_options_exits _ _ _ Hopts).
    + intros datadir Hopts. split; [|split].
      * intros Hmode. unfold main.
        destruct (Z.eqb_spec argc 1) as [E|_]; [contradiction|].
        rewrite Hopts.
        destruct (sys_lstat datadir (w_uninit w) w) as [statbuf w1].
        cbn [fst snd] in *.
        destruct statbuf; [now contradiction Hmode | reflexivity..].
      * intros Hdir n w' Hrun.
        exact (Hwalk fuel datadir n w' Hargc Hopts Hdir Hrun).
      * intros q s l c Hn Hleaf.
        assert (Hl : sys_lstat datadir (w_uninit w) w =
                     (S_IFDIR, log (EvLstat (w_cwd w) datadir (Some S_IFDIR)) w))
          by (unfold sys_lstat; now rewrite Hn).
        destruct (scan_directory_leaf fuel datadir
                    (log (EvLstat (w_cwd w) datadir (Some S_IFDIR)) w)
                    q s l c Hn Hleaf) as (n & w' & Hrun & _).
        exists n, w'. rewrite Hl. cbn [snd]. split; [exact Hrun|].
        apply (Hwalk (S fuel) datadir n w' Hargc Hopts);
          rewrite Hl; [reflexivity | exact Hrun].
Qed.

(** X13: when the data directory does not exist, [lstat] fails and what
    [main] does is decided by what [statbuf] held before the call: anything
    but a directory ends it with status 1, and a directory sends it into
    [scan_directory], where [opendir] fails, the count is 0 and the status
    is 0. *)
Theorem main_missing_directory (argc : Z) (opts : list getopt_result)
    (datadir0 datadir : string) (fuel : nat) (w : world) :
  argc <> 1 ->
  parse_options opts datadir0 = Parsed datadir ->
  namei w datadir = None ->
  main argc opts datadir0 (S fuel) w =
  match w_uninit w with
  | S_IFDIR =>
      Exit 0 (logs [EvLstat (w_cwd w) datadir None;
                    EvOpendir (w_cwd w) datadir false] w)
  | _ => Exit 1 (log (EvLstat (w_cwd w) datadir None) w)
  end.
Proof.
  intros Hargc Hopts Hn. unfold main.
  destruct (Z.eqb_spec argc 1) as [E|_]; [contradiction|].
  rewrite Hopts. unfold sys_lstat. rewrite Hn.
  destruct (w_uninit w); try reflexivity.
  cbn [scan_directory]. unfold sys_opendir.
  change (namei (log ?e w) datadir) with (namei w datadir).
  rewrite Hn. reflexivity.
Qed.

End Status.

(** ** The layout of a data directory *)

Lemma resolve_lookup (root : node) (cwd : path) (p : string) (q : path)
    (x : node) :
  resolve root cwd p = Some (q, x) -> lookup root q = Some x.
Proof.
  unfold resolve. destruct p; [discriminate|].
  destruct (walk root _ _) as [q'|]; [|discriminate].
  destruct (lookup root q') as [y|] eqn:Hy; [|discriminate].
  intros H. inversion H; subst. exact Hy.
Qed.

Lemma lookup_parent_dir (p : path) :
  forall (r x : node), lookup r p = Some x -> mode_of x = S_IFDIR ->
  exists y, lookup r (removelast p) = Some y /\ mode_of y = S_IFDIR.
Proof.
  induction p as [|a p IH]; intros r x H Hx.
  - inversion H; subst. now exists x.
  - destruct p as [|b p].
    + cbn [removelast lookup] in *. exists r. split; [reflexivity|].
      destruct r; [discriminate | reflexivity | discriminate].
    + cbn [removelast] in *. cbn [lookup] in H |- *.
      destruct r as [f|rd sr l children|]; try discriminate.
      destruct (child a children) as [r'|]; [|discriminate].
      exact (IH _ _ H Hx).
Qed.

(** From a directory the process may search, [.] and [..] are found and
    are directories. *)
Lemma resolve_dots (root : node) (q : path) (r : bool) (l : list string)
    (c : list (string * node)) (e : string) :
  lookup root q = Some (Dir r true l c) ->
  e = "." \/ e = ".." ->
  exists q' y, resolve root q e = Some (q', y) /\ mode_of y = S_IFDIR.
Proof.
  intros Hq He.
  destruct He as [->| ->].
  - exists q, (Dir r true l c).
    unfold resolve. cbn [is_absolute split_path walk]. cbn.
    rewrite Hq. cbn. rewrite Hq. now split.
  - destruct (lookup_parent_dir q root _ Hq eq_refl) as (y & Hy & Hmode).
    exists (removelast q), y.
    unfold resolve. cbn. rewrite Hq. cbn. rewrite Hy. now split.
Qed.

Lemma is_absolute_snprintf_path (a b : string) :
  is_absolute a = true ->
  is_absolute (snprintf_path MAX_DIR_LENGTH a b) = true.
Proof.
  destruct a as [|c a]; [discriminate|]. intros H. exact H.
Qed.

Lemma wrap32_add_r (a b : Z) : wrap32 (a + wrap32 b) = wrap32 (a + b).
Proof. unfold wrap32. apply Z.add_mod_idemp_r. lia. Qed.

Section Layout.

Context {pg : Postgres}.

Lemma scan_entries_layout (fuel : nat) (dirpath : string) (root : node)
    (qb : path) (lb : list string) :
  is_absolute dirpath = true ->
  forall entries : list string,
  Forall (database_entry root qb dirpath lb) entries ->
  incl entries lb ->
  forall (statbuf : st_mode) (found : Z) (w : world),
  w_root w = root ->
  (exists r l c, lookup root (w_cwd w) = Some (Dir r true l c)) ->
  (w_cwd w = qb \/
   (statbuf = S_IFDIR /\
    forall d, In d lb -> d <> "." -> d <> ".." ->
              resolve root (w_cwd w) d = None)) ->
  0 <= found < 2 ^ 32 ->
  exists w',
    scan_entries (scan_directory (S (S fuel))) dirpath entries statbuf found w =
      Some (wrap32 (found + layout_total root dirpath entries), w').
Proof.
  intros Habs. induction 1 as [|e rest He Hrest IH];
    intros Hincl statbuf found w Hroot Hdir Hwhere Hfound;
    cbn [scan_entries layout_total].
  - eexists. now rewrite Z.add_0_r, wrap32_small by assumption.
  - assert (Hin : In e lb) by (apply Hincl; now left).
    assert (Hincl' : incl rest lb)
      by (intros d Hd; apply Hincl; now right).
    destruct (String.eqb "." e || String.eqb ".." e) eqn:Hdot.
    + (* [.] or [..]: found from any directory, and a directory *)
      assert (Hname : e = "." \/ e = "..").
      { apply orb_true_iff in Hdot.
        destruct Hdot as [H|H]; apply String.eqb_eq in H; auto. }
      destruct Hdir as (r0 & l0 & c0 & Hx).
      destruct (resolve_dots root (w_cwd w) r0 l0 c0 e Hx Hname)
        as (q' & y & Hres & Hy).
      unfold sys_lstat, namei. rewrite Hroot, Hres, Hy, Z.add_0_l.
      apply IH; auto.
      * now exists r0, l0, c0.
      * destruct Hwhere as [Hw|[_ Hw]]; [now left | right; now split].
    + (* the directory of a database *)
      assert (Hne1 : e <> ".") by (intros ->; discriminate).
      assert (Hne2 : e <> "..") by (intros ->; discriminate).
      destruct He as [->|[->|((qx & x & Hres & Hmode) & q & l & c
                               & Hnew & Hflat & Halone)]];
        [discriminate..|].
      rewrite Hnew.
      assert (Hl : exists w1,
                sys_lstat e statbuf w = (S_IFDIR, w1) /\
                w_root w1 = root /\ w_cwd w1 = w_cwd w).
      { unfold sys_lstat, namei. rewrite Hroot.
        destruct Hwhere as [Hw|[Hst Hw]].
        - rewrite Hw, Hres, Hmode. eexists. now split.
        - rewrite (Hw e Hin Hne1 Hne2), Hst. eexists. now split. }
      destruct Hl as (w1 & Hl & Hroot1 & Hcwd1). rewrite Hl.
      destruct (scan_directory_flat fuel
                  (snprintf_path MAX_DIR_LENGTH dirpath e) w1 q l c)
        as (w2 & Hrun & Hroot2 & Hcwd2).
      * unfold namei. rewrite Hroot1.
        rewrite (resolve_absolute root (w_cwd w1) []); [exact Hnew|].
        now apply is_absolute_snprintf_path.
      * now rewrite Hroot1.
      * rewrite Hrun, Hroot1, wrap32_add_r.
        destruct (IH Hincl' S_IFDIR
                    (wrap32 (found + listing_total root q l)) w2)
          as (w' & Hrest').
        -- now rewrite Hroot2.
        -- rewrite Hcwd2. exists true, l, c.
           eapply resolve_lookup; eauto.
        -- right. split; [reflexivity|]. now rewrite Hcwd2.
        -- apply wrap32_range.
        -- exists w'. now rewrite Hrest', wrap32_add_l, Z.add_assoc.
Qed.

(** X14: on the layout of a data directory the walk counts every file once.
    For an absolute path to a directory the process may read and search,
    whose entries are [.], [..] and database directories that it may read
    and search too, that hold no directory the scan can enter and nothing
    named like an entry of the directory above, [scan_directory] returns,
    with any fuel of 3 or more, the sum modulo 2^32 of what the regular files
    of the database directories count. *)
Theorem scan_directory_data_layout (fuel : nat) (dirpath : string) (w : world)
    (qb : path) (lb : list string) (cb : list (string * node)) :
  is_absolute dirpath = true ->
  namei w dirpath = Some (qb, Dir true true lb cb) ->
  Forall (database_entry (w_root w) qb dirpath lb) lb ->
  exists w',
    scan_directory (S (S (S fuel))) dirpath w =
      Some (wrap32 (layout_total (w_root w) dirpath lb), w').
Proof.
  intros Habs Hn Hlb. rewrite (scan_directory_enters _ _ _ _ _ _ Hn).
  destruct (scan_entries_layout fuel dirpath (w_root w) qb lb Habs lb Hlb
              (incl_refl lb) (w_uninit w) 0
              (set_cwd qb
                 (logs [EvOpendir (w_cwd w) dirpath true;
                        EvChdir (w_cwd w) dirpath true] w)))
    as (w' & Hrun).
  - reflexivity.
  - exists true, lb, cb. eapply resolve_lookup. exact Hn.
  - now left.
  - lia.
  - exists w'. now rewrite Hrun, Z.add_0_l.
Qed.

(** X15: on that layout [main] reports what the files hold.  When the
    options leave an absolute data directory of that layout, which the
    process may read and search as it may the database directories, [main] ends
    with status 1 if the sum modulo 2^32 of what the regular files of the
    database directories count is positive, and with status 0 if it is 0. *)
Theorem main_on_data_layout (argc : Z) (opts : list getopt_result)
    (datadir0 datadir : string) (fuel : nat) (w : world)
    (qb : path) (lb : list string) (cb : list (string * node)) :
  argc <> 1 ->
  parse_options opts datadir0 = Parsed datadir ->
  is_absolute datadir = true ->
  namei w datadir = Some (qb, Dir true true lb cb) ->
  Forall (database_entry (w_root w) qb datadir lb) lb ->
  exists w',
    main argc opts datadir0 (S (S (S fuel))) w =
    Exit (if 0 <? wrap32 (layout_total (w_root w) datadir lb) then 1 else 0) w'.
Proof.
  intros Hargc Hopts Habs Hn Hlb. unfold main.
  destruct (Z.eqb_spec argc 1) as [E|_]; [contradiction|].
  rewrite Hopts. unfold sys_lstat. rewrite Hn. cbn [mode_of].
  set (w1 := log (EvLstat (w_cwd w) datadir (Some S_IFDIR)) w).
  rewrite (scan_directory_enters _ datadir w1 qb lb cb Hn).
  destruct (scan_entries_layout fuel datadir (w_root w) qb lb Habs lb Hlb
              (incl_refl lb) (w_uninit w1) 0
              (set_cwd qb
                 (logs [EvOpendir (w_cwd w1) datadir true;
                        EvChdir (w_cwd w1) datadir true] w1)))
    as (w' & Hrun).
  - reflexivity.
  - exists true, lb, cb. eapply resolve_lookup. exact Hn.
  - now left.
  - lia.
  - rewrite Hrun, Z.add_0_l.
    destruct (0 <? wrap32 (layout_total (w_root w) datadir lb)); now exists w'.
Qed.

End Layout.

(** ** The further properties on the worked examples *)

Lemma ordinal_depends_on_suffix_only_witness :
  parse_segment_number "16384.2" = parse_segment_number "99999.2".
Proof.
  apply (ordinal_depends_on_suffix_only "16384.2" "99999.2"
           (chars "16384") (chars "99999") "." "." (chars "2"));
    reflexivity.
Defined.

Lemma checksum_blkno_injective_witness :
  parse_segment_number "16384.1" = parse_segment_number "99999.1" /\ 5 = 5.
Proof.
  apply (checksum_blkno_injective "16384.1" "99999.1" 5 5).
  - vm_compute. reflexivity.
  - vm_compute. reflexivity.
  - unfold RELSEG_SIZE. lia.
  - unfold RELSEG_SIZE. lia.
  - vm_compute. reflexivity.
Defined.

Lemma scan_segmentfile_count_bound_witness :
  0 <= fst (scan_segmentfile "16384" "/base/1" short_read_world) <= 4.
Proof.
  apply (scan_segmentfile_count_bound "16384" "/base/1"
           [RData good_page_0; RData bad_page; RData [x01; x02; x03];
            RData new_page]
           short_read_world
           (log (EvOpen ["base"; "1"] "16384" true) short_read_world)).
  reflexivity.
Defined.

Lemma scan_segmentfile_clean_witness :
  fst (scan_segmentfile "16384" "/base/1"
         (in_base_1 [("16384", Reg (mkfile true (map RData [new_page; new_page])))]))
  = 0.
Proof.
  apply (scan_segmentfile_clean "16384" "/base/1" [new_page; new_page]
           (in_base_1 [("16384", Reg (mkfile true (map RData [new_page; new_page])))])
           (log (EvOpen ["base"; "1"] "16384" true)
              (in_base_1 [("16384",
                           Reg (mkfile true (map RData [new_page; new_page])))]))).
  - reflexivity.
  - reflexivity.
  - repeat constructor.
  - vm_compute. reflexivity.
  - repeat constructor.
Defined.

Lemma scan_segmentfile_read_error_witness :
  fst (scan_segmentfile "16384" "/base/1" read_error_world)
  = corrupted_pages "16384" [good_page_0].
Proof.
  rewrite (scan_segmentfile_read_error "16384" "/base/1" [good_page_0] []
             read_error_world
             (log (EvOpen ["base"; "1"] "16384" true) read_error_world)).
  - reflexivity.
  - reflexivity.
  - reflexivity.
  - repeat constructor.
  - vm_compute. reflexivity.
Defined.

Lemma scan_directory_closes_what_it_opens_witness :
  exists n w',
    scan_directory 3 "/base" world_a = Some (n, w') /\
    net fd_weight (w_trace w') = 0 /\ net dir_weight (w_trace w') = 0.
Proof.
  destruct (scan_directory 3 "/base" world_a) as [[n w']|] eqn:Hrun;
    [|vm_compute in Hrun; discriminate].
  exists n, w'. split; [reflexivity|].
  exact (scan_directory_closes_what_it_opens 3 "/base" world_a n w' Hrun).
Defined.

Lemma scan_directory_verifies_what_it_reads_witness :
  exists n w' evs,
    scan_directory 3 "/base" world_a = Some (n, w') /\
    w_trace w' = evs ++ w_trace world_a /\
    file_protocol evs NoFile = Some NoFile.
Proof.
  destruct (scan_directory 3 "/base" world_a) as [[n w']|] eqn:Hrun;
    [|vm_compute in Hrun; discriminate].
  destruct (scan_directory_verifies_what_it_reads 3 "/base" world_a n w' Hrun)
    as (evs & Htrace & Hp & _).
  exists n, w', evs. split; [reflexivity|]. split; [exact Htrace | exact Hp].
Defined.

Lemma scan_directory_sums_regular_files_witness :
  exists w',
    scan_directory 2 "/base/1" in_base_a =
      Some (wrap32 (listing_total (w_root in_base_a) ["base"; "1"]
                      ["."; ".."; "16384"]), w') /\
    w_cwd w' = ["base"; "1"].
Proof.
  apply (scan_directory_sums_regular_files 0 "/base/1" in_base_a
           ["base"; "1"] ["."; ".."; "16384"]
           [("16384", Reg (mkfile true [RData new_page; RData bad_page]))]).
  - reflexivity.
  - apply Forall_cons.
    { eexists _, _. split; [vm_compute; reflexivity | now left]. }
    apply Forall_cons.
    { eexists _, _. split; [vm_compute; reflexivity | now right]. }
    apply Forall_cons; [|apply Forall_nil].
    eexists _, _. split; [vm_compute; reflexivity | discriminate].
Defined.

Lemma scan_directory_relative_path_witness :
  exists w',
    scan_directory 2 "base" world_a =
      Some (wrap32 (listing_total (w_root world_a) ["base"] listing_a), w') /\
    w_cwd w' = ["base"].
Proof.
  apply (scan_directory_relative_path 0 "base" world_a ["base"] listing_a
           base_children).
  - reflexivity.
  - reflexivity.
  - repeat (apply Forall_cons;
            [split; [eexists _, _; vm_compute; reflexivity
                    | vm_compute; lia]|]).
    apply Forall_nil.
Defined.

Lemma scan_directory_again_witness :
  option_map fst (scan_directory 3 "/base" world_a) =
  option_map fst (scan_directory 3 "/base" in_base_a).
Proof.
  apply (proj1 (scan_directory_again 3 "/base" (w_root world_a) eq_refl
                  (fun q s l c H =>
                     f_equal (fun r => match r with
                                       | Some (_, Dir _ s' _ _) => s'
                                       | _ => true
                                       end) (eq_sym H))));
    reflexivity.
Defined.

Lemma trailing_slash_is_ignored_witness :
  set_datadir "/var/lib/postgresql/" = set_datadir "/var/lib/postgresql".
Proof.
  apply (trailing_slash_is_ignored "/var/lib/postgresq" "l" 2 [] [] ""
           0 world_a).
  discriminate.
Defined.

Lemma main_exit_status_witness :
  exists w',
    scan_directory 3 "/base"
      (snd (sys_lstat "/base" (w_uninit clean_world) clean_world))
      = Some (0, w') /\
    main 3 [mkopt "v" None; mkopt "D" (Some "/")] "" 3 clean_world = Exit 0 w'.
Proof.
  destruct (scan_directory 3 "/base"
              (snd (sys_lstat "/base" (w_uninit clean_world) clean_world)))
    as [[n w']|] eqn:Hrun; [|vm_compute in Hrun; discriminate].
  assert (Hn : n = 0) by (vm_compute in Hrun; now inversion Hrun).
  subst n. exists w'. split; [reflexivity|].
  destruct (main_exit_status 3 [mkopt "v" None; mkopt "D" (Some "/")] "" 3
              clean_world) as [_ H].
  destruct H as [_ Hparsed]; [discriminate|].
  destruct (Hparsed "/base" eq_refl) as (_ & Hdir & _).
  exact (proj2 (Hdir eq_refl 0 w' Hrun)).
Defined.

Lemma main_missing_directory_witness :
  main 3 [mkopt "D" (Some "/nowhere")] "" 1 stale_dir_world =
  Exit 0 (logs [EvLstat [] "/nowhere/base" None;
                EvOpendir [] "/nowhere/base" false] stale_dir_world).
Proof.
  apply (main_missing_directory 3 [mkopt "D" (Some "/nowhere")] ""
           "/nowhere/base" 0 stale_dir_world).
  - discriminate.
  - reflexivity.
  - reflexivity.
Defined.

Lemma scan_directory_data_layout_witness :
  layout_total (w_root layout_world) "/base" ["."; ".."; "1"; "16384"] = 3 /\
  exists w',
    scan_directory 3 "/base" layout_world =
      Some (wrap32 (layout_total (w_root layout_world) "/base"
                      ["."; ".."; "1"; "16384"]), w').
Proof.
  split; [vm_compute; reflexivity|].
  apply (scan_directory_data_layout 0 "/base" layout_world ["base"]
           ["."; ".."; "1"; "16384"]
           [("1", dir_of [("1259",
                           Reg (mkfile true [RData new_page; RData bad_page]))]);
            ("16384", dir_of
               [("16385", Reg (mkfile true [RData bad_page; RData bad_page]));
                ("16385.1", Reg (mkfile true [RData new_page]))])]).
  - reflexivity.
  - reflexivity.
  - assert (Halone : forall q,
              resolve (w_root layout_world) q "1" = None ->
              resolve (w_root layout_world) q "16384" = None ->
              forall d, In d ["."; ".."; "1"; "16384"] ->
                        d <> "." -> d <> ".." ->
                        resolve (w_root layout_world) q d = None).
    { intros q H1 H2 d [<-|[<-|[<-|[<-|[]]]]] Hd1 Hd2;
        [now contradiction Hd1 | now contradiction Hd2 | exact H1 | exact H2]. }
    apply Forall_cons; [now left|].
    apply Forall_cons; [right; now left|].
    apply Forall_cons.
    { right; right. split.
      - eexists _, _. split; [vm_compute; reflexivity | reflexivity].
      - eexists _, _, _. split; [vm_compute; reflexivity|]. split.
        + apply Forall_cons.
          { eexists _, _. split; [vm_compute; reflexivity | now left]. }
          apply Forall_cons.
          { eexists _, _. split; [vm_compute; reflexivity | right; now left]. }
          apply Forall_cons; [|apply Forall_nil].
          eexists _, _. split; [vm_compute; reflexivity | discriminate].
        + apply Halone; vm_compute; reflexivity. }
    apply Forall_cons; [|apply Forall_nil].
    right; right. split.
    + eexists _, _. split; [vm_compute; reflexivity | reflexivity].
    + eexists _, _, _. split; [vm_compute; reflexivity|]. split.
      * apply Forall_cons.
        { eexists _, _. split; [vm_compute; reflexivity | now left]. }
        apply Forall_cons.
        { eexists _, _. split; [vm_compute; reflexivity | right; now left]. }
        apply Forall_cons.
        { eexists _, _. split; [vm_compute; reflexivity | discriminate]. }
        apply Forall_cons; [|apply Forall_nil].
        eexists _, _. split; [vm_compute; reflexivity | discriminate].
      * apply Halone; vm_compute; reflexivity.
Defined.

Lemma main_on_data_layout_witness :
  exists w',
    main 3 [mkopt "D" (Some "/")] "" 3 clean_world =
    Exit (if 0 <? wrap32 (layout_total (w_root clean_world) "/base"
                            ["."; ".."; "1"])
          then 1 else 0) w'.
Proof.
  apply (main_on_data_layout 3 [mkopt "D" (Some "/")] "" "/base" 0 clean_world
           ["base"] ["."; ".."; "1"] [("1", dir_of clean_children)]).
  - discriminate.
  - reflexivity.
  - reflexivity.
  - reflexivity.
  - apply Forall_cons; [now left|].
    apply Forall_cons; [right; now left|].
    apply Forall_cons; [|apply Forall_nil].
    right; right. split.
    + eexists _, _. split; [vm_compute; reflexivity | reflexivity].
    + eexists _, _, _. split; [vm_compute; reflexivity|]. split.
      * apply Forall_cons.
        { eexists _, _. split; [vm_compute; reflexivity | now left]. }
        apply Forall_cons.
        { eexists _, _. split; [vm_compute; reflexivity | right; now left]. }
        apply Forall_cons; [|apply Forall_nil].
        eexists _, _. split; [vm_compute; reflexivity | discriminate].
      * intros d [<-|[<-|[<-|[]]]] Hd1 Hd2;
          [now contradiction Hd1 | now contradiction Hd2 |].
        vm_compute. reflexivity.
Defined.
